(** * Maekawa mutual exclusion (prac_V_maekawa): a shallow embedding

    The development follows the Python sources:
    - [Codec]   : message.py   (Message.parse, the frame splitter)
    - [Quorum]  : node.py      (Node.__form_colleagues)
    - [NodeM]   : node.py, nodeSend.py, nodeServer.py
                  (the handlers, send_message / multicast, process_message,
                   the steps of Node.run)
    - [System]  : maekawaMutex.py (N nodes and the streams between them,
                  as an interleaving of the nodes' threads). *)

From Stdlib Require Import ZArith Lia Ascii String Sorted.
From stdpp Require Import base option list gmap sets.

Open Scope Z_scope.
Open Scope nat_scope.

(** Exceptions of Python that the modelled code can raise. *)
Inductive PyExc : Type :=
| ValueError
| IndexError.

(** Outcome of a Python call: a returned value, a raised exception, or a
    loop that is still running when the fuel given to the model is used up. *)
Inductive outcome (A : Type) : Type :=
| Returned (a : A)
| Raised (e : PyExc)
| Running.
Arguments Returned {A} a.
Arguments Raised {A} e.
Arguments Running {A}.

(* ====================================================================== *)
(** ** message.py : Message.parse *)
(* ====================================================================== *)
Module Codec.

(** A Python [str] is a list of characters. *)
Definition pystr : Type := list ascii.

Definition lit (s : string) : pystr := list_ascii_of_string s.

Definition close_brace : ascii := "}"%char.
Definition open_brace : ascii := "{"%char.

(** The separator searched by [parse]: the two characters "}{". *)
Definition sep : pystr := [close_brace; open_brace].

(** [startswith sub s]: [sub] is a prefix of [s]. *)
Fixpoint startswith (sub s : pystr) : bool :=
  match sub, s with
  | [], _ => true
  | _ :: _, [] => false
  | a :: sub', b :: s' => if Ascii.eqb a b then startswith sub' s' else false
  end.

(** [str.find(sub)]: the lowest index at which [sub] occurs in [s];
    Python's -1 is [None]. *)
Fixpoint str_find (sub s : pystr) : option nat :=
  if startswith sub s then Some 0
  else match s with
       | [] => None
       | _ :: s' => S <$> str_find sub s'
       end.

(** [str[-1]]: the last character; IndexError on the empty string. *)
Definition str_last (s : pystr) : outcome ascii :=
  match last s with
  | Some c => Returned c
  | None => Raised IndexError
  end.

(** One iteration of the [while True] loop of [Message.parse], repeated
    [fuel] times at most. *)
Fixpoint parse_loop (fuel : nat) (str : pystr) (msgs : list pystr)
  : outcome (list pystr) :=
  match fuel with
  | 0 => Running
  | S fuel' =>
      match str_find sep str with
      | None =>
          (* split == -1 *)
          match str_last str with
          | Returned c =>
              if Ascii.eqb c close_brace
              then Returned (msgs ++ [str])
              else Raised ValueError
          | Raised e => Raised e
          | Running => Running
          end
      | Some split =>
          match str_last (take (split + 1) str) with
          | Returned c =>
              if Ascii.eqb c close_brace
              then parse_loop fuel' (drop (split + 1) str)
                              (msgs ++ [take (split + 1) str])
              else Raised ValueError
          | Raised e => Raised e
          | Running => Running
          end
      end
  end.

(** [Message.parse(str)].  Every iteration but the last removes at least one
    character from [str], so [S (length str)] iterations are enough
    (lemma [parse_loop_total] below). *)
Definition parse (str : pystr) : outcome (list pystr) :=
  parse_loop (S (length str)) str [].

(** A serialized message as far as the framing is concerned: a string that
    opens with '{', closes with '}' and has no "}{" inside. *)
Definition is_frame (s : pystr) : Prop :=
  head s = Some open_brace /\ last s = Some close_brace /\ str_find sep s = None.

(** What [parse] hands out: a string that ends in '}' and has no "}{"
    inside.  (Nothing is required of its first character.) *)
Definition is_piece (s : pystr) : Prop :=
  last s = Some close_brace /\ str_find sep s = None.

End Codec.

(* ====================================================================== *)
(** ** node.py : Node.__form_colleagues *)
(* ====================================================================== *)
Module Quorum.

(** [ceil(sqrt(N))].  The source computes it in floating point; for the
    node counts a run can have (far below 2^52) that is the exact ceiling of
    the square root, which is what is modelled. *)
Definition ceil_sqrt (N : nat) : nat :=
  let s := Nat.sqrt N in
  if s * s =? N then s else S s.

(** First [for]: the ids of the node's row, left to right, with [break] at
    the first position outside [0, N). *)
Fixpoint row_loop (N num_rows row_index : nat) (js : list nat)
                  (colleagues : gset nat) : gset nat :=
  match js with
  | [] => colleagues
  | j :: js' =>
      let pos := row_index * num_rows + j in
      if N <=? pos then colleagues
      else row_loop N num_rows row_index js' (colleagues ∪ {[pos]})
  end.

(** Second [for]: the ids of the node's column, top to bottom, with
    [continue] at a position outside [0, N). *)
Fixpoint col_loop (N num_rows col_index : nat) (rows : list nat)
                  (colleagues : gset nat) : gset nat :=
  match rows with
  | [] => colleagues
  | i :: rows' =>
      let pos := i * num_rows + col_index in
      if N <=? pos then col_loop N num_rows col_index rows' colleagues
      else col_loop N num_rows col_index rows' (colleagues ∪ {[pos]})
  end.

(** The set built by the two [for] loops.  Read for [N >= 1]: with no node
    at all [num_rows] is 0 and line 67 divides by zero, which is not
    modelled; the theorems about quorums assume [1 <= N]. *)
Definition grid_set (N id : nat) : gset nat :=
  let num_rows := ceil_sqrt N in
  let row_index := id / num_rows in
  let col_index := id mod num_rows in
  col_loop N num_rows col_index (seq 0 num_rows)
    (row_loop N num_rows row_index (seq 0 num_rows) ∅).

(** The padding [while]: [draws] are the successive results of
    [random.randint(0, N-1)].  [None]: the loop is still running after the
    draws given. *)
Fixpoint pad_loop (target : nat) (draws : list nat) (colleagues : gset nat)
  : option (gset nat) :=
  if size colleagues <? target then
    match draws with
    | [] => None
    | r :: draws' => pad_loop target draws' (colleagues ∪ {[r]})
    end
  else Some colleagues.

(** The set at line 86, after the union of row and column and the padding. *)
Definition padded_set (N id : nat) (draws : list nat) : option (gset nat) :=
  pad_loop (2 * ceil_sqrt N - 1) draws (grid_set N id).

(** [__form_colleagues]: the value stored in [self.colleagues]. *)
Definition form_colleagues (N id : nat) (draws : list nat)
  : option (list nat) :=
  c ← padded_set N id draws;
  Some (elements (c ∖ {[id]})).

(** Draws that [random.randint(0, N-1)] can return. *)
Definition valid_draws (N : nat) (draws : list nat) : Prop :=
  Forall (fun r => r < N) draws.

End Quorum.

(* ====================================================================== *)
(** ** message.py, nodeSend.py, nodeServer.py, node.py : one node *)
(* ====================================================================== *)
Module NodeM.

(** [MessageType]: the six string constants. *)
Definition REQUEST : string := "REQUEST".
Definition GRANT : string := "GRANT".
Definition RELEASE : string := "RELEASE".
Definition FAILED : string := "FAILED".
Definition INQUIRE : string := "INQUIRE".
Definition YIELD : string := "YIELD".

(** A priority [(ts, src)], a Python tuple of two ints. *)
Definition prio : Type := Z * nat.

(** Python's [<] on two such tuples: lexicographic. *)
Definition prio_ltb (a b : prio) : bool :=
  (a.1 <? b.1)%Z || ((a.1 =? b.1)%Z && (a.2 <? b.2)).

(** Python's [==] on two such tuples. *)
Definition prio_eqb (a b : prio) : bool :=
  (a.1 =? b.1)%Z && (a.2 =? b.2).

(** [class Message]; [dest] is [None] until it is set. *)
Record Message : Type := mkMessage {
  msg_type : string;
  src : nat;
  dest : option nat;
  ts : Z;
  data : option prio
}.

Definition set_ts (m : Message) (t : Z) : Message :=
  mkMessage (msg_type m) (src m) (dest m) t (data m).

Definition set_dest (m : Message) (d : nat) : Message :=
  mkMessage (msg_type m) (src m) (Some d) (ts m) (data m).

(** The six message types of the protocol. *)
Definition message_types : list string :=
  [REQUEST; GRANT; RELEASE; FAILED; INQUIRE; YIELD].

Definition known_type (t : string) : bool :=
  existsb (String.eqb t) message_types.

(** *** [Message.to_json]: [json.dumps] of the five fields

    [json.dumps] with its default separators writes a dict as
    ["{" + ", ".join(key + ": " + value) + "}"], an int in decimal, [None] as
    [null] and a tuple as a list. *)

Definition quote : ascii := "034"%char.

Fixpoint uint_chars (d : Decimal.uint) : Codec.pystr :=
  match d with
  | Decimal.Nil => []
  | Decimal.D0 d' => "0"%char :: uint_chars d'
  | Decimal.D1 d' => "1"%char :: uint_chars d'
  | Decimal.D2 d' => "2"%char :: uint_chars d'
  | Decimal.D3 d' => "3"%char :: uint_chars d'
  | Decimal.D4 d' => "4"%char :: uint_chars d'
  | Decimal.D5 d' => "5"%char :: uint_chars d'
  | Decimal.D6 d' => "6"%char :: uint_chars d'
  | Decimal.D7 d' => "7"%char :: uint_chars d'
  | Decimal.D8 d' => "8"%char :: uint_chars d'
  | Decimal.D9 d' => "9"%char :: uint_chars d'
  end.

Definition json_nat (n : nat) : Codec.pystr := uint_chars (Nat.to_uint n).

Definition json_int (z : Z) : Codec.pystr :=
  match Z.to_int z with
  | Decimal.Pos d => uint_chars d
  | Decimal.Neg d => "-"%char :: uint_chars d
  end.

Definition json_null : Codec.pystr := Codec.lit "null".

(** A string that needs no escape, as the message types are. *)
Definition json_str (t : string) : Codec.pystr :=
  quote :: Codec.lit t ++ [quote].

Definition json_opt_nat (d : option nat) : Codec.pystr :=
  match d with Some n => json_nat n | None => json_null end.

(** [data]: [None], or the tuple [(ts, src)] of an INQUIRE. *)
Definition json_data (d : option prio) : Codec.pystr :=
  match d with
  | Some (t, s) =>
      Codec.lit "[" ++ json_int t ++ Codec.lit ", " ++ json_nat s ++ Codec.lit "]"
  | None => json_null
  end.

Definition json_item (key : string) (value : Codec.pystr) : Codec.pystr :=
  json_str key ++ Codec.lit ": " ++ value.

(** The text between the braces. *)
Definition to_json_items (m : Message) : Codec.pystr :=
  json_item "msg_type" (json_str (msg_type m)) ++ Codec.lit ", " ++
  json_item "src" (json_nat (src m)) ++ Codec.lit ", " ++
  json_item "dest" (json_opt_nat (dest m)) ++ Codec.lit ", " ++
  json_item "ts" (json_int (ts m)) ++ Codec.lit ", " ++
  json_item "data" (json_data (data m)).

Definition to_json (m : Message) : Codec.pystr :=
  Codec.open_brace :: to_json_items m ++ [Codec.close_brace].

(** No character of [s] is a brace. *)
Definition no_brace (s : Codec.pystr) : bool :=
  forallb (fun c => negb (Ascii.eqb c Codec.open_brace)
                    && negb (Ascii.eqb c Codec.close_brace)) s.

(** [queue.PriorityQueue] holding priorities.  The program observes it only
    through [put], [get] and [empty], and [get] returns the least element, so
    it is modelled by the list of its elements in ascending order. *)
Definition pqueue : Type := list prio.

Fixpoint pq_put (x : prio) (q : pqueue) : pqueue :=
  match q with
  | [] => [x]
  | y :: q' => if prio_ltb y x then y :: pq_put x q' else x :: q
  end.

Definition pq_empty (q : pqueue) : bool :=
  match q with [] => true | _ :: _ => false end.

Definition pq_get (q : pqueue) : option (prio * pqueue) :=
  match q with [] => None | x :: q' => Some (x, q') end.

(** The attributes of [class Node] that the protocol reads and writes. *)
Record Node : Type := mkNode {
  id : nat;
  lamport_ts : Z;
  colleagues : list nat;
  queue : pqueue;
  grants_sent : option prio;
  grants_received : gset nat;
  yielded : bool;
  failed : bool;
  in_CS : bool;
  wakeupcounter : nat
}.

Definition set_lamport_ts (n : Node) (t : Z) : Node :=
  mkNode (id n) t (colleagues n) (queue n) (grants_sent n)
         (grants_received n) (yielded n) (failed n) (in_CS n) (wakeupcounter n).

Definition set_queue (n : Node) (q : pqueue) : Node :=
  mkNode (id n) (lamport_ts n) (colleagues n) q (grants_sent n)
         (grants_received n) (yielded n) (failed n) (in_CS n) (wakeupcounter n).

Definition set_grants_sent (n : Node) (g : option prio) : Node :=
  mkNode (id n) (lamport_ts n) (colleagues n) (queue n) g
         (grants_received n) (yielded n) (failed n) (in_CS n) (wakeupcounter n).

Definition set_grants_received (n : Node) (s : gset nat) : Node :=
  mkNode (id n) (lamport_ts n) (colleagues n) (queue n) (grants_sent n)
         s (yielded n) (failed n) (in_CS n) (wakeupcounter n).

Definition set_yielded (n : Node) (b : bool) : Node :=
  mkNode (id n) (lamport_ts n) (colleagues n) (queue n) (grants_sent n)
         (grants_received n) b (failed n) (in_CS n) (wakeupcounter n).

Definition set_failed (n : Node) (b : bool) : Node :=
  mkNode (id n) (lamport_ts n) (colleagues n) (queue n) (grants_sent n)
         (grants_received n) (yielded n) b (in_CS n) (wakeupcounter n).

Definition set_in_CS (n : Node) (b : bool) : Node :=
  mkNode (id n) (lamport_ts n) (colleagues n) (queue n) (grants_sent n)
         (grants_received n) (yielded n) (failed n) b (wakeupcounter n).

Definition set_wakeupcounter (n : Node) (k : nat) : Node :=
  mkNode (id n) (lamport_ts n) (colleagues n) (queue n) (grants_sent n)
         (grants_received n) (yielded n) (failed n) (in_CS n) k.

(** [Node.__init__], given the quorum that [__form_colleagues] computed. *)
Definition init_node (i : nat) (cs : list nat) : Node :=
  mkNode i 0%Z cs [] None ∅ false false false 0.

(** What a call writes to the node's outbound sockets: each entry is the
    index [dest] of [client_sockets] written to and the message written. *)
Definition outbox : Type := list (nat * Message).

(** [NodeSend.send_message(msg, dest)] with [multicast=False]: ticks the
    clock, stamps the message, writes it.  The [assert dest == msg.dest] is
    not part of the model; lemma [sends_respect_assert] shows that it
    holds at every write the handlers make. *)
Definition send_message (n : Node) (msg : Message) (d : nat)
  : Node * outbox :=
  let n' := set_lamport_ts n (lamport_ts n + 1)%Z in
  (n', [(d, set_ts msg (lamport_ts n'))]).

(** [NodeSend.multicast(msg, group)]: one tick, one stamp, then a copy with
    its own [dest] for every member of [group]. *)
Definition multicast (n : Node) (msg : Message) (group : list nat)
  : Node * outbox :=
  let n' := set_lamport_ts n (lamport_ts n + 1)%Z in
  let msg' := set_ts msg (lamport_ts n') in
  (n', map (fun d => (d, set_dest msg' d)) group).

(** [Node.request_handler]. *)
Definition request_handler (n : Node) (msg : Message) : Node * outbox :=
  match grants_sent n with
  | Some (hp_ts, hp_src) =>
      if prio_ltb (hp_ts, hp_src) (ts msg, src msg) then
        let rep := mkMessage FAILED (id n) (Some (src msg)) (lamport_ts n) None in
        let '(n1, out) := send_message n rep (src msg) in
        (set_queue n1 (pq_put (ts msg, src msg) (queue n1)), out)
      else
        let rep := mkMessage INQUIRE (id n) (Some hp_src) (lamport_ts n)
                             (Some (ts msg, src msg)) in
        let '(n1, out) := send_message n rep hp_src in
        (set_queue n1 (pq_put (ts msg, src msg) (queue n1)), out)
  | None =>
      let rep := mkMessage GRANT (id n) (Some (src msg)) (lamport_ts n) None in
      let '(n1, out) := send_message n rep (src msg) in
      (set_grants_sent n1 (Some (ts msg, src msg)), out)
  end.

(** The statement [if self.grants_sent and (msg.ts, msg.src) == self.grants_sent:
    self.grants_sent = None], shared by the YIELD and RELEASE handlers. *)
Definition clear_grant_if_equal (n : Node) (msg : Message) : Node :=
  match grants_sent n with
  | Some g =>
      if prio_eqb (ts msg, src msg) g then set_grants_sent n None else n
  | None => n
  end.

(** The statement [if not self.queue.empty(): ... GRANT to the head], shared
    by the YIELD and RELEASE handlers; [None] when the queue is empty. *)
Definition grant_next (n : Node) : option (Node * outbox) :=
  match pq_get (queue n) with
  | Some ((q_ts, q_src), q') =>
      let n1 := set_queue n q' in
      let rep := mkMessage GRANT (id n1) (Some q_src) (lamport_ts n1) None in
      let '(n2, out) := send_message n1 rep q_src in
      Some (set_grants_sent n2 (Some (q_ts, q_src)), out)
  | None => None
  end.

(** [Node.yield_handler]. *)
Definition yield_handler (n : Node) (msg : Message) : Node * outbox :=
  let n1 := set_queue n (pq_put (ts msg, src msg) (queue n)) in
  let n2 := clear_grant_if_equal n1 msg in
  match grant_next n2 with
  | Some r => r
  | None => (n2, [])
  end.

(** The [while not self.queue.empty()] loop of [release_handler]: the
    entries leave the old queue in priority order and those of another
    source enter [new_queue]. *)
Fixpoint purge (s : nat) (q : pqueue) (new_queue : pqueue) : pqueue :=
  match q with
  | [] => new_queue
  | (q_ts, q_src) :: q' =>
      if q_src =? s then purge s q' new_queue
      else purge s q' (pq_put (q_ts, q_src) new_queue)
  end.

(** [Node.release_handler]. *)
Definition release_handler (n : Node) (msg : Message) : Node * outbox :=
  let n1 := clear_grant_if_equal n msg in
  let n2 := set_queue n1 (purge (src msg) (queue n1) []) in
  match grant_next n2 with
  | Some r => r
  | None => (set_grants_sent n2 None, [])
  end.

(** [Node.inquire_handler]. *)
Definition inquire_handler (n : Node) (msg : Message) : Node * outbox :=
  if negb (in_CS n) then
    let rep := mkMessage YIELD (id n) (Some (src msg)) (lamport_ts n) None in
    let n1 := set_yielded n true in
    let n2 := if decide (src msg ∈ grants_received n1)
              then set_grants_received n1 (grants_received n1 ∖ {[src msg]})
              else n1 in
    send_message n2 rep (src msg)
  else (n, []).

(** [Node.grant_handler]; the boolean tells whether [condition.notify()]
    was called. *)
Definition grant_handler (n : Node) (msg : Message) : Node * bool :=
  let n1 := set_grants_received n (grants_received n ∪ {[src msg]}) in
  let n2 := set_yielded n1 false in
  let n3 := set_failed n2 false in
  (n3, negb (size (grants_received n3) <? length (colleagues n3))).

(** [Node.failed_handler]. *)
Definition failed_handler (n : Node) : Node :=
  set_yielded (set_failed n true) true.

(** Result of [NodeServer.process_message]: the node afterwards, what was
    written to the sockets, whether the condition was notified and the
    exception raised, if any. *)
Record processed : Type := mkProcessed {
  p_node : Node;
  p_sent : outbox;
  p_notified : bool;
  p_raised : option PyExc
}.

(** The clock assignment at the top of [process_message]. *)
Definition receive_tick (n : Node) (msg : Message) : Node :=
  set_lamport_ts n (Z.max (lamport_ts n) (ts msg) + 1)%Z.

(** The [match msg_type] of [process_message]. *)
Definition dispatch (n : Node) (msg : Message) : processed :=
  if String.eqb (msg_type msg) REQUEST then
    let '(n', out) := request_handler n msg in mkProcessed n' out false None
  else if String.eqb (msg_type msg) YIELD then
    let '(n', out) := yield_handler n msg in mkProcessed n' out false None
  else if String.eqb (msg_type msg) RELEASE then
    let '(n', out) := release_handler n msg in mkProcessed n' out false None
  else if String.eqb (msg_type msg) INQUIRE then
    let '(n', out) := inquire_handler n msg in mkProcessed n' out false None
  else if String.eqb (msg_type msg) GRANT then
    let '(n', b) := grant_handler n msg in mkProcessed n' [] b None
  else if String.eqb (msg_type msg) FAILED then
    mkProcessed (failed_handler n) [] false None
  else mkProcessed n [] false (Some ValueError).

(** [NodeServer.process_message]. *)
Definition process_message (n : Node) (msg : Message) : processed :=
  dispatch (receive_tick n msg) msg.

(** *** The body of the [while] loop of [Node.run], statement by statement *)

(** Lines 103-110: the self-grant and the multicast of the REQUEST. *)
Definition run_request (n : Node) : Node * outbox :=
  let n1 := set_grants_received n (grants_received n ∪ {[id n]}) in
  let req := mkMessage REQUEST (id n1) None (lamport_ts n1) None in
  multicast n1 req (colleagues n1).

(** The test of the [while] at line 115: [true] when the thread goes on
    waiting. *)
Definition must_wait (n : Node) : bool :=
  size (grants_received n) <? length (colleagues n).

(** Lines 114-118: [None] while the thread is blocked in
    [condition.wait()], otherwise the node with [in_CS] set. *)
Definition run_enter (n : Node) : option Node :=
  if must_wait n then None else Some (set_in_CS n true).

(** Lines 126-128. *)
Definition run_exit (n : Node) : Node :=
  set_in_CS (set_grants_received n ∅) false.

(** Lines 131-140: the multicast of the RELEASE and the iteration count. *)
Definition run_release (n : Node) : Node * outbox :=
  let rel := mkMessage RELEASE (id n) None (lamport_ts n) None in
  let '(n1, out) := multicast n rel (colleagues n) in
  (set_wakeupcounter n1 (wakeupcounter n1 + 1), out).

(** The assertion [assert dest == msg.dest] of [send_message], for every
    message of an outbox. *)
Definition assert_holds (out : outbox) : Prop :=
  Forall (fun dm => dest dm.2 = Some dm.1) out.

(** The clock after a handler has run on a node whose clock was [c]: one
    tick for each message written, and every message written carries
    [c + 1]. *)
Definition ticks_per_send (c : Z) (p : processed) : Prop :=
  lamport_ts (p_node p) = (c + Z.of_nat (length (p_sent p)))%Z /\
  Forall (fun dm => ts dm.2 = (c + 1)%Z) (p_sent p).

(** The node with its two flags [yielded] and [failed] reset. *)
Definition clear_flags (n : Node) : Node :=
  set_yielded (set_failed n false) false.

(** Python's [<=] on two priorities. *)
Definition prio_leb (a b : prio) : bool := negb (prio_ltb b a).

(** The list that stands for a [PriorityQueue] is in ascending order, so
    that its head is what [get] returns. *)
Definition pq_sorted (q : pqueue) : Prop :=
  StronglySorted (fun a b => prio_leb a b = true) q.

(** Node-local facts that hold whenever a thread is between two steps. *)
Definition idle_grant_means_empty_queue (n : Node) : Prop :=
  grants_sent n = None -> queue n = [].

Definition cs_holds_grants (n : Node) : Prop :=
  in_CS n = true -> length (colleagues n) <= size (grants_received n).

End NodeM.

(* ====================================================================== *)
(** ** maekawaMutex.py : the nodes and the streams between them *)
(* ====================================================================== *)
Module System.
Import NodeM.

(** Where the thread of [Node.run] stands in the body of its loop. *)
Inductive loop_pc : Type :=
| PcRequest    (* at the loop test, before the REQUEST multicast *)
| PcWait       (* at the [with self.condition] of line 114 *)
| PcInCS       (* in the critical section *)
| PcRelease    (* after line 128, before the RELEASE multicast *)
| PcFinished.  (* after the loop *)

(** The system: node [i] is entry [i] of [nodes] (as in
    [MaekawaMutex.nodes]); [chans !! (i, j)] is what node [i] has written to
    [client_sockets[j]] and the server of node [j] has not yet read, oldest
    first. *)
Record System : Type := mkSystem {
  nodes : list (Node * loop_pc);
  chans : gmap (nat * nat) (list Message)
}.

Definition chan (c : gmap (nat * nat) (list Message)) (i j : nat)
  : list Message :=
  default [] (c !! (i, j)).

(** Node [i] writes the messages of [out], in order. *)
Definition post (i : nat) (out : outbox) (c : gmap (nat * nat) (list Message))
  : gmap (nat * nat) (list Message) :=
  foldl (fun c' dm => <[(i, dm.1) := chan c' i dm.1 ++ [dm.2]]> c') c out.

(** The quorums of nodes [0 .. k-1]; [draws i] is what [random.randint]
    returns to node [i]. *)
Fixpoint init_nodes (N : nat) (draws : nat -> list nat) (k : nat)
  : option (list (Node * loop_pc)) :=
  match k with
  | 0 => Some []
  | S k' =>
      ns ← init_nodes N draws k';
      cs ← Quorum.form_colleagues N k' (draws k');
      Some (ns ++ [(init_node k' cs, PcRequest)])
  end.

(** [MaekawaMutex.__init__] for [config.numNodes = N]. *)
Definition init_system (N : nat) (draws : nat -> list nat) : option System :=
  ns ← init_nodes N draws N;
  Some (mkSystem ns ∅).

(** The atomic steps: the loop thread of node [i] executes its next
    statement group, or the server of node [j] processes the oldest message
    of the stream from node [i].  The threads of the program interleave at a
    finer grain (only part of the handlers take the node's lock), so every
    schedule of these steps is a schedule of the program, not conversely.
    In particular the loop thread and the server thread of a node both
    read and write [lamport_ts] and the sockets without a common lock:
    what is proved over these steps is the existence of runs, and
    invariants of what one thread alone writes or of how messages are
    built and addressed; nothing is stated about the order of clock
    values or of timestamps across the two threads.
    The server reads a stream in chunks and processes the messages of a
    chunk in order; chunks are taken to end at message boundaries, and no
    message of a reachable state raises (lemma [deliver_never_raises]), so
    that is the same as reading message by message.  The barrier
    [Node._finished] behind the loop is modelled on its own in module
    [Barrier]. *)
Inductive event : Type :=
| EvLoop (i : nat)
| EvDeliver (i j : nat).

Definition loop_step (i : nat) (s : System) : option System :=
  '(n, pc) ← nodes s !! i;
  match pc with
  | PcRequest =>
      if wakeupcounter n <=? 2 then
        let '(n', out) := run_request n in
        Some (mkSystem (<[i := (n', PcWait)]> (nodes s)) (post i out (chans s)))
      else Some (mkSystem (<[i := (n, PcFinished)]> (nodes s)) (chans s))
  | PcWait =>
      n' ← run_enter n;
      Some (mkSystem (<[i := (n', PcInCS)]> (nodes s)) (chans s))
  | PcInCS =>
      Some (mkSystem (<[i := (run_exit n, PcRelease)]> (nodes s)) (chans s))
  | PcRelease =>
      let '(n', out) := run_release n in
      Some (mkSystem (<[i := (n', PcRequest)]> (nodes s)) (post i out (chans s)))
  | PcFinished => None
  end.

Definition deliver_step (i j : nat) (s : System) : option System :=
  '(n, pc) ← nodes s !! j;
  match chan (chans s) i j with
  | [] => None
  | m :: rest =>
      let p := process_message n m in
      Some (mkSystem (<[j := (p_node p, pc)]> (nodes s))
                     (post j (p_sent p) (<[(i, j) := rest]> (chans s))))
  end.

Definition step (e : event) (s : System) : option System :=
  match e with
  | EvLoop i => loop_step i s
  | EvDeliver i j => deliver_step i j s
  end.

Fixpoint run_trace (tr : list event) (s : System) : option System :=
  match tr with
  | [] => Some s
  | e :: tr' => s' ← step e s; run_trace tr' s'
  end.

(** The states a system of [N] nodes can reach. *)
Definition reachable (N : nat) (draws : nat -> list nat) (s : System) : Prop :=
  exists s0 tr, init_system N draws = Some s0 /\ run_trace tr s0 = Some s.

(** [in_CS] of node [i]. *)
Definition in_cs (s : System) (i : nat) : bool :=
  match nodes s !! i with
  | Some (n, _) => in_CS n
  | None => false
  end.

(** The pending-request queue of node [i]. *)
Definition queue_of (s : System) (i : nat) : pqueue :=
  match nodes s !! i with
  | Some (n, _) => queue n
  | None => []
  end.

(** *** Invariants of the reachable states *)

(** Node [j] carries its own index, is not its own colleague, and neither
    its queue nor its outstanding grant names [j]. *)
Definition node_ok (j : nat) (n : Node) : Prop :=
  id n = j /\ (j ∉ colleagues n) /\
  Forall (fun e : prio => e.2 <> j) (queue n) /\
  (forall g, grants_sent n = Some g -> g.2 <> j).

(** A message from [i] to another node [j], of one of the six types. *)
Definition msg_ok (i j : nat) (m : Message) : Prop :=
  src m = i /\ i <> j /\ known_type (msg_type m) = true.

(** What node [j] writes goes to another node, names [j] as source and has
    one of the six types. *)
Definition out_ok (j : nat) (out : outbox) : Prop :=
  Forall (fun dm : nat * Message => msg_ok j dm.1 dm.2) out.

(** Every message in flight from [i] to [j] names [i] as source and has one
    of the six types, and no node writes to itself. *)
Definition chans_ok (c : gmap (nat * nat) (list Message)) : Prop :=
  forall i j l, c !! (i, j) = Some l -> Forall (msg_ok i j) l.

Definition nodes_ok (ns : list (Node * loop_pc)) : Prop :=
  forall j n pc, ns !! j = Some (n, pc) -> node_ok j n.

Definition sys_ok (s : System) : Prop :=
  nodes_ok (nodes s) /\ chans_ok (chans s).

(** *** Two schedules *)

(** No padding draws: enough when N is a square. *)
Definition no_draws : nat -> list nat := fun _ => [].

(** 4 nodes.  Nodes 0 and 3 (both with colleagues 1 and 2) request; node 1
    reads the REQUEST of node 0 and node 2 the one of node 3; each requester
    reads the GRANT it got and passes its wait loop. *)
Definition crossing_requests : list event :=
  [EvLoop 0; EvLoop 3; EvDeliver 0 1; EvDeliver 3 2;
   EvDeliver 1 0; EvDeliver 2 3; EvLoop 0; EvLoop 3].

(** 9 nodes.  Node 0 grants node 3, then reads the REQUESTs of nodes 1 and 2
    and sends node 3 an INQUIRE for each; node 3 reads the GRANT and the two
    INQUIREs and answers each with a YIELD; node 0 reads the two YIELDs. *)
Definition double_inquire : list event :=
  [EvLoop 3; EvDeliver 3 0; EvLoop 1; EvDeliver 1 0; EvLoop 2; EvDeliver 2 0;
   EvDeliver 0 3; EvDeliver 0 3; EvDeliver 0 3; EvDeliver 3 0; EvDeliver 3 0].

(** The system of 4 nodes as [MaekawaMutex.__init__] builds it, and the
    state in which node 0 is in the critical section after node 1 has
    granted its request. *)
Definition four_nodes : System :=
  mkSystem [(init_node 0 [2; 1], PcRequest); (init_node 1 [3; 0], PcRequest);
            (init_node 2 [3; 0], PcRequest); (init_node 3 [2; 1], PcRequest)]
           ∅.

Definition node0_enters : list event :=
  [EvLoop 0; EvDeliver 0 1; EvDeliver 1 0; EvLoop 0].

Definition four_nodes_cs : System :=
  default four_nodes (run_trace node0_enters four_nodes).

(** 4 nodes.  Nodes 0 and 3 request; node 1 grants node 0 and queues the
    request of node 3, answering FAILED.  Node 0 reads the GRANT, enters,
    leaves and releases; node 1 reads the RELEASE and grants the queued
    request of node 3, which reads FAILED and GRANT, enters, leaves and
    releases; node 1 reads that RELEASE too.  [four_nodes_waiting] is the
    state after the first four steps, [four_nodes_served] the last one. *)
Definition served_in_turn : list event :=
  [EvLoop 0; EvLoop 3; EvDeliver 0 1; EvDeliver 3 1; EvDeliver 1 0;
   EvLoop 0; EvLoop 0; EvLoop 0; EvDeliver 0 1;
   EvDeliver 1 3; EvDeliver 1 3; EvLoop 3; EvLoop 3; EvLoop 3;
   EvDeliver 3 1].

Definition four_nodes_waiting : System :=
  default four_nodes (run_trace (take 4 served_in_turn) four_nodes).

Definition four_nodes_served : System :=
  default four_nodes (run_trace served_in_turn four_nodes).

(** A system of one node: its loop runs three times without a message. *)
Definition one_node : System := mkSystem [(init_node 0 [], PcRequest)] ∅.

Definition one_node_done : System :=
  default one_node (run_trace (replicate 13 (EvLoop 0)) one_node).

(** *** More observations of a state *)

(** The format of a message in flight from [i] to [j]: it names its two
    ends, has one of the six types, and carries [data] exactly when it is an
    INQUIRE. *)
Definition wire_ok (i j : nat) (m : Message) : Prop :=
  src m = i /\ dest m = Some j /\ i <> j /\
  known_type (msg_type m) = true /\
  (is_Some (data m) <-> msg_type m = INQUIRE).

(** A fact about every message in flight, given its destination. *)
Definition all_in_flight (Q : nat -> Message -> Prop) (s : System) : Prop :=
  forall i j l, chans s !! (i, j) = Some l -> Forall (Q j) l.

(** The part of [wire_ok] that does not depend on the sender. *)
Definition sent_ok (d : nat) (m : Message) : Prop :=
  dest m = Some d /\ (is_Some (data m) <-> msg_type m = INQUIRE).

(** Node [k] works for node [i] when it is one of [i]'s colleagues;
    [cols i] is the quorum of node [i].  The requests node [k] has queued
    or granted, and the messages between the two, exist only then. *)
Definition serves (cols : nat -> list nat) (k i : nat) : Prop := k ∈ cols i.

Definition client_msg (t : string) : bool :=
  String.eqb t REQUEST || String.eqb t RELEASE || String.eqb t YIELD.

Definition quorum_node_ok (cols : nat -> list nat) (k : nat) (n : Node) : Prop :=
  colleagues n = cols k /\
  Forall (fun e : prio => serves cols k e.2) (queue n) /\
  (forall g, grants_sent n = Some g -> serves cols k g.2) /\
  (forall x, x ∈ grants_received n -> x = k \/ x ∈ cols k).

Definition quorum_msg_ok (cols : nat -> list nat) (i j : nat) (m : Message)
  : Prop :=
  if client_msg (msg_type m) then serves cols j i else serves cols i j.

Definition quorum_ok (cols : nat -> list nat) (s : System) : Prop :=
  (forall k n pc, nodes s !! k = Some (n, pc) -> quorum_node_ok cols k n) /\
  (forall i j l, chans s !! (i, j) = Some l -> Forall (quorum_msg_ok cols i j) l).

(** The quorums of a state, as a function of the node. *)
Definition cols_of (s : System) (i : nat) : list nat :=
  match nodes s !! i with
  | Some (n, _) => colleagues n
  | None => []
  end.

(** How often the loop thread of node [i] passes its wait loop (enters the
    critical section) along a schedule. *)
Definition enters (i : nat) (e : event) (s : System) : bool :=
  match e, nodes s !! i with
  | EvLoop k, Some (_, PcWait) => k =? i
  | _, _ => false
  end.

Fixpoint cs_entries (i : nat) (tr : list event) (s : System) : nat :=
  match tr with
  | [] => 0
  | e :: tr' =>
      match step e s with
      | Some s' => (if enters i e s then 1 else 0) + cs_entries i tr' s'
      | None => 0
      end
  end.

(** A fact about a node and the place of its loop thread, for all nodes. *)
Definition all_nodes (P : Node * loop_pc -> Prop) (s : System) : Prop :=
  forall i np, nodes s !! i = Some np -> P np.

(** The critical-section visits of a node that its state accounts for. *)
Definition visits (np : Node * loop_pc) : nat :=
  match np.2 with
  | PcInCS | PcRelease => S (wakeupcounter np.1)
  | _ => wakeupcounter np.1
  end.

Definition visits_of (s : System) (i : nat) : nat :=
  match nodes s !! i with
  | Some np => visits np
  | None => 0
  end.

(** The iteration count and the place of the loop thread fit together. *)
Definition loop_ok (np : Node * loop_pc) : Prop :=
  visits np <= 3 /\
  (np.2 = PcWait -> wakeupcounter np.1 <= 2) /\
  (np.2 = PcFinished -> wakeupcounter np.1 = 3) /\
  (in_CS np.1 = true <-> np.2 = PcInCS).

End System.

(* ====================================================================== *)
(** ** node.py : Node._finished, the barrier behind the loop *)
(* ====================================================================== *)
Module Barrier.

(** A thread with respect to [_finished]: not yet called, blocked in
    [wait()] (with the notification it may have got since), or returned. *)
Inductive bthread : Type :=
| BOutside
| BWaiting (notified : bool)
| BDone.

(** [Node._FINISHED_NODES] and the threads of the [N] nodes. *)
Record state : Type := mkState {
  finished_nodes : nat;
  threads : list bthread
}.

Definition init (N : nat) : state := mkState 0 (replicate N BOutside).

(** [notify_all()]: every thread blocked in [wait()] is notified. *)
Definition notify_all (ts : list bthread) : list bthread :=
  (fun t => match t with BWaiting _ => BWaiting true | _ => t end) <$> ts.

(** The test of the [while]: wait again, or return. *)
Definition after_test (N : nat) (finished : nat) : bthread :=
  if finished <? N then BWaiting false else BDone.

(** Thread [i] calls [_finished]: under the lock it counts itself,
    notifies all waiting threads if it is the last one, and runs the
    [while] test once. *)
Definition arrive (N i : nat) (b : state) : option state :=
  match threads b !! i with
  | Some BOutside =>
      let f := finished_nodes b + 1 in
      let ts := if f =? N then notify_all (threads b) else threads b in
      Some (mkState f (<[i := after_test N f]> ts))
  | _ => None
  end.

(** Thread [i], notified, gets the lock back and runs the [while] test
    again. *)
Definition resume (N i : nat) (b : state) : option state :=
  match threads b !! i with
  | Some (BWaiting true) =>
      Some (mkState (finished_nodes b)
                    (<[i := after_test N (finished_nodes b)]> (threads b)))
  | _ => None
  end.

Inductive bevent : Type :=
| Arrive (i : nat)
| Resume (i : nat).

Definition bstep (N : nat) (e : bevent) (b : state) : option state :=
  match e with
  | Arrive i => arrive N i b
  | Resume i => resume N i b
  end.

Fixpoint run (N : nat) (tr : list bevent) (b : state) : option state :=
  match tr with
  | [] => Some b
  | e :: tr' => b' ← bstep N e b; run N tr' b'
  end.

(** The threads that have called [_finished]. *)
Definition arrived (t : bthread) : bool :=
  match t with BOutside => false | _ => true end.

Definition count_arrived (ts : list bthread) : nat :=
  length (filter (fun t => arrived t = true) ts).

(** What holds between two steps: the counter is the number of threads that
    arrived; below [N] nobody has returned and nobody is notified; at [N]
    nobody is still blocked without a notification. *)
Definition barrier_ok (N : nat) (b : state) : Prop :=
  length (threads b) = N /\
  finished_nodes b = count_arrived (threads b) /\
  (finished_nodes b < N ->
     Forall (fun t => t = BOutside \/ t = BWaiting false) (threads b)) /\
  (finished_nodes b = N ->
     Forall (fun t => t = BWaiting true \/ t = BDone) (threads b)).

End Barrier.

(* ====================================================================== *)
(** * Properties *)
(* ====================================================================== *)

Module CodecSpec.
Import Codec.

Lemma startswith_sep_inv (s : pystr) :
  startswith sep s = true ->
  exists s', s = close_brace :: open_brace :: s'.
Proof.
  unfold sep. destruct s as [|a [|b s']]; cbn [startswith]; try discriminate.
  - destruct (Ascii.eqb close_brace a); discriminate.
  - destruct (Ascii.eqb_spec close_brace a) as [<-|]; [|discriminate].
    destruct (Ascii.eqb_spec open_brace b) as [<-|]; [|discriminate].
    eauto.
Qed.

(** Where [find] reports the separator, the string has it. *)
Lemma str_find_sep_Some (s : pystr) (k : nat) :
  str_find sep s = Some k ->
  s !! k = Some close_brace /\ s !! (S k) = Some open_brace.
Proof.
  revert k. induction s as [|a s IH]; intros k.
  - simpl. discriminate.
  - cbn [str_find]. destruct (startswith sep (a :: s)) eqn:E.
    + intros [= <-]. apply startswith_sep_inv in E as [s' E].
      inversion E; subst. done.
    + destruct (str_find sep s) as [k'|]; simpl; [|discriminate].
      intros [= <-]. simpl. by apply IH.
Qed.

Lemma last_take_lookup (s : pystr) (k : nat) (c : ascii) :
  s !! k = Some c -> last (take (k + 1) s) = Some c.
Proof.
  intros H. rewrite last_lookup.
  pose proof (lookup_lt_Some _ _ _ H) as Hlt.
  rewrite length_take. replace (pred (min (k + 1) (length s))) with k by lia.
  rewrite lookup_take_lt by lia. done.
Qed.

Lemma last_drop_lt (s : pystr) (k : nat) :
  k < length s -> last (drop k s) = last s.
Proof.
  intros H. rewrite !last_lookup, lookup_drop, length_drop.
  f_equal. lia.
Qed.

(** The loop of [parse] never needs more iterations than the string has
    characters, plus one. *)
Lemma parse_loop_total (fuel : nat) :
  forall (str : pystr) (msgs : list pystr),
    length str < fuel -> parse_loop fuel str msgs <> Running.
Proof.
  induction fuel as [|fuel IH]; intros str msgs Hlen; [lia|].
  cbn [parse_loop]. destruct (str_find sep str) as [k|] eqn:Ef.
  - apply str_find_sep_Some in Ef as [Hk Hk1].
    unfold str_last. rewrite (last_take_lookup _ _ _ Hk).
    rewrite Ascii.eqb_refl. apply IH.
    apply lookup_lt_Some in Hk1. rewrite length_drop. lia.
  - unfold str_last. destruct (last str); [|done].
    destruct (Ascii.eqb a close_brace); done.
Qed.

Lemma parse_total (str : pystr) : parse str <> Running.
Proof. apply parse_loop_total. lia. Qed.

Lemma parse_loop_bad_trailer (fuel : nat) :
  forall (str : pystr) (msgs : list pystr) (c : ascii),
    length str < fuel -> last str = Some c -> c <> close_brace ->
    parse_loop fuel str msgs = Raised ValueError.
Proof.
  induction fuel as [|fuel IH]; intros str msgs c Hlen Hlast Hc; [lia|].
  cbn [parse_loop]. destruct (str_find sep str) as [k|] eqn:Ef.
  - apply str_find_sep_Some in Ef as [Hk Hk1].
    unfold str_last. rewrite (last_take_lookup _ _ _ Hk).
    rewrite Ascii.eqb_refl.
    apply lookup_lt_Some in Hk1.
    apply (IH _ _ c); [rewrite length_drop; lia | | done].
    rewrite last_drop_lt by lia. done.
  - unfold str_last. rewrite Hlast.
    destruct (Ascii.eqb_spec c close_brace); [contradiction|done].
Qed.


Lemma startswith_sep_app_false (a b : ascii) (x y : pystr) :
  startswith sep (a :: b :: x) = false ->
  startswith sep (a :: b :: x ++ y) = false.
Proof.
  unfold sep. cbn [startswith].
  destruct (Ascii.eqb close_brace a); [|done].
  destruct (Ascii.eqb open_brace b); done.
Qed.

Lemma str_find_None_inv (a : ascii) (x : pystr) :
  str_find sep (a :: x) = None ->
  startswith sep (a :: x) = false /\ str_find sep x = None.
Proof.
  cbn [str_find]. destruct (startswith sep (a :: x)); [discriminate|].
  destruct (str_find sep x); [discriminate|done].
Qed.

(** In the concatenation of a frame and a string that opens with '{', the
    first "}{" is the boundary between the two. *)
Lemma str_find_boundary (x y : pystr) :
  last x = Some close_brace -> str_find sep x = None ->
  str_find sep (x ++ open_brace :: y) = Some (length x - 1).
Proof.
  induction x as [|a x IH]; intros Hlast Hfind; [discriminate|].
  apply str_find_None_inv in Hfind as [Hsw Hfind].
  destruct x as [|b x].
  - simpl in Hlast. injection Hlast as ->. reflexivity.
  - change ((a :: b :: x) ++ open_brace :: y)
      with (a :: (b :: x) ++ open_brace :: y).
    cbn [str_find].
    change (a :: (b :: x) ++ open_brace :: y)
      with (a :: b :: x ++ open_brace :: y).
    rewrite (startswith_sep_app_false _ _ _ _ Hsw).
    change (b :: x ++ open_brace :: y) with ((b :: x) ++ open_brace :: y).
    rewrite IH; [|by rewrite last_cons_cons in Hlast|done].
    simpl. f_equal. lia.
Qed.

Lemma is_frame_nonempty (x : pystr) : is_frame x -> 0 < length x.
Proof. intros (H & _ & _). destruct x; [discriminate|simpl; lia]. Qed.

Lemma concat_frames_head (L : list pystr) :
  L <> [] -> Forall is_frame L ->
  exists y, concat L = open_brace :: y.
Proof.
  intros HL HF. destruct L as [|x L]; [done|].
  apply Forall_cons in HF as [(Hh & _ & _) _].
  destruct x as [|c x]; [discriminate|]. injection Hh as ->.
  simpl. eauto.
Qed.

Lemma parse_loop_frames (L : list pystr) :
  forall (fuel : nat) (msgs : list pystr),
    L <> [] -> Forall is_frame L -> length (concat L) < fuel ->
    parse_loop fuel (concat L) msgs = Returned (msgs ++ L).
Proof.
  induction L as [|x L IH]; intros fuel msgs HL HF Hlen; [done|].
  destruct fuel as [|fuel]; [lia|].
  pose proof HF as HF'.
  apply Forall_cons in HF' as [Hx HFL].
  pose proof (is_frame_nonempty _ Hx) as Hxlen.
  destruct Hx as (Hhead & Hlast & Hfind).
  destruct L as [|x' L].
  - simpl. rewrite app_nil_r. rewrite Hfind. unfold str_last.
    rewrite Hlast, Ascii.eqb_refl. done.
  - destruct (concat_frames_head (x' :: L)) as [y Hy]; [done|done|].
    change (concat (x :: x' :: L)) with (x ++ concat (x' :: L)) in *.
    cbn [parse_loop]. rewrite Hy.
    rewrite str_find_boundary by done.
    replace (length x - 1 + 1) with (length x) by lia.
    rewrite take_app_length, drop_app_length.
    unfold str_last. rewrite Hlast, Ascii.eqb_refl.
    rewrite <- Hy. rewrite IH; [|done|done|].
    + by rewrite <- app_assoc.
    + rewrite length_app in Hlen. lia.
Qed.

(** C7 (as amended): for every non-empty list [L] of serialized messages
    (strings that open with '{', end in '}' and contain no "}{"),
    [Message.parse] applied to the concatenation of [L] returns exactly [L],
    in order. *)
Theorem parse_concat_frames (L : list pystr) :
  L <> [] -> Forall is_frame L -> parse (concat L) = Returned L.
Proof.
  intros HL HF. unfold parse.
  rewrite parse_loop_frames by (done || lia). done.
Qed.

Lemma parse_concat_frames_witness :
  parse (concat [lit "{a}"; lit "{b}"]) = Returned [lit "{a}"; lit "{b}"].
Proof.
  apply (parse_concat_frames [lit "{a}"; lit "{b}"]).
  - discriminate.
  - repeat constructor.
Defined.

(** The opening brace of a frame matters: strings that only end in '}' and
    hold no "}{" are not split. *)
Example frames_must_open_with_brace :
  parse (concat [lit "a}"; lit "b}"]) = Returned [lit "a}b}"].
Proof. reflexivity. Qed.

(** C7 (as stated) fails on the empty list of messages: the concatenation is
    the empty string, on which [parse] raises instead of returning []. *)
Lemma parse_concat_empty_list :
  Forall is_frame [] /\
  parse (concat []) = Raised IndexError /\
  parse (concat []) <> Returned [].
Proof. split; [constructor|]. split; [reflexivity|discriminate]. Qed.

(** C8: on a non-empty string whose last character is not '}', [parse]
    raises ValueError. *)
Theorem parse_bad_trailer (str : pystr) :
  str <> [] -> last str <> Some close_brace -> parse str = Raised ValueError.
Proof.
  intros Hne Hlast. destruct (last str) as [c|] eqn:E.
  - apply (parse_loop_bad_trailer _ _ _ c); [lia|done|congruence].
  - apply last_None in E. contradiction.
Qed.

Lemma parse_bad_trailer_witness :
  parse (lit "{a}{b") = Raised ValueError.
Proof.
  apply (parse_bad_trailer (lit "{a}{b")).
  - discriminate.
  - discriminate.
Defined.

(** C10: on the empty string [parse] raises IndexError (from [str[-1]]), not
    ValueError; it returns no list. *)
Theorem parse_empty_string :
  parse [] = Raised IndexError /\
  parse [] <> Raised ValueError /\
  (forall msgs, parse [] <> Returned msgs).
Proof. repeat split; discriminate || reflexivity. Qed.

End CodecSpec.

Module QuorumSpec.
Import Quorum.

Section Arith.

Lemma ceil_sqrt_bounds (N : nat) :
  1 <= N ->
  1 <= ceil_sqrt N /\
  (ceil_sqrt N - 1) * (ceil_sqrt N - 1) < N <= ceil_sqrt N * ceil_sqrt N.
Proof.
  intros HN. unfold ceil_sqrt.
  pose proof (Nat.sqrt_spec N ltac:(lia)) as [Hlo Hhi]. cbn zeta.
  destruct (Nat.eqb_spec (Nat.sqrt N * Nat.sqrt N) N) as [E|E].
  - assert (1 <= Nat.sqrt N) by (destruct (Nat.sqrt N); simpl in *; lia).
    split; [done|]. split; [|lia].
    replace (Nat.sqrt N) with (S (Nat.sqrt N - 1)) in E at 1 2 by lia. nia.
  - split; [lia|]. replace (S (Nat.sqrt N) - 1) with (Nat.sqrt N) by lia.
    simpl in Hhi. nia.
Qed.

(** The target size fits in [0, N) for every node count but 2. *)
Lemma target_le_N (N : nat) :
  1 <= N -> N <> 2 -> 2 * ceil_sqrt N - 1 <= N.
Proof.
  intros HN H2. destruct (ceil_sqrt_bounds N HN) as (H1 & Hlo & Hhi).
  destruct (ceil_sqrt N) as [|[|[|m]]]; simpl in *; nia.
Qed.

Lemma ceil_sqrt_2 : ceil_sqrt 2 = 2.
Proof. reflexivity. Qed.

End Arith.

Section Loops.
Variables N num_rows : nat.

Lemma size_add_le (c : gset nat) (x : nat) : size (c ∪ {[x]}) <= S (size c).
Proof.
  rewrite size_union_alt.
  assert (size (({[x]} : gset nat) ∖ c) <= size ({[x]} : gset nat))
    by (apply subseteq_size; set_solver).
  rewrite size_singleton in *. lia.
Qed.

Lemma size_add_in (c : gset nat) (x : nat) : x ∈ c -> c ∪ {[x]} = c.
Proof. set_solver. Qed.

Lemma row_loop_mono row js c : c ⊆ row_loop N num_rows row js c.
Proof.
  revert c. induction js as [|j js IH]; intros c; simpl; [done|].
  case_match; [done|]. etrans; [|apply IH]. set_solver.
Qed.

Lemma col_loop_mono col rows c : c ⊆ col_loop N num_rows col rows c.
Proof.
  revert c. induction rows as [|i rows IH]; intros c; simpl; [done|].
  case_match; [apply IH|]. etrans; [|apply IH]. set_solver.
Qed.

Lemma row_loop_range row js c x :
  x ∈ row_loop N num_rows row js c -> x ∈ c \/ x < N.
Proof.
  revert c. induction js as [|j js IH]; intros c; simpl; [auto|].
  destruct (Nat.leb_spec N (row * num_rows + j)); [auto|].
  intros [Hx|Hx]%IH; [|auto]. set_unfold in Hx. destruct Hx; [auto|lia].
Qed.

Lemma col_loop_range col rows c x :
  x ∈ col_loop N num_rows col rows c -> x ∈ c \/ x < N.
Proof.
  revert c. induction rows as [|i rows IH]; intros c; simpl; [auto|].
  destruct (Nat.leb_spec N (i * num_rows + col)); [apply IH|].
  intros [Hx|Hx]%IH; [|auto]. set_unfold in Hx. destruct Hx; [auto|lia].
Qed.

Lemma row_loop_size row js c :
  size (row_loop N num_rows row js c) <= size c + length js.
Proof.
  revert c. induction js as [|j js IH]; intros c; simpl; [lia|].
  case_match; [lia|]. etrans; [apply IH|].
  pose proof (size_add_le c (row * num_rows + j)). lia.
Qed.

Lemma col_loop_size col rows c :
  size (col_loop N num_rows col rows c) <= size c + length rows.
Proof.
  revert c. induction rows as [|i rows IH]; intros c; simpl; [lia|].
  case_match; [etrans; [apply IH|lia]|]. etrans; [apply IH|].
  pose proof (size_add_le c (i * num_rows + col)). lia.
Qed.

(** The row loop reaches the node's own cell before any [break]. *)
Lemma row_loop_seq_in row a len c j :
  a <= j < a + len -> row * num_rows + j < N ->
  row * num_rows + j ∈ row_loop N num_rows row (seq a len) c.
Proof.
  revert a c. induction len as [|len IH]; intros a c Hj HN; [lia|].
  simpl. destruct (Nat.leb_spec N (row * num_rows + a)); [lia|].
  destruct (decide (a = j)) as [->|Hne].
  - apply row_loop_mono. set_solver.
  - apply IH; lia.
Qed.

(** The column loop adds nothing at the row of a cell that is already in
    the set. *)
Lemma col_loop_size_shared col rows c r :
  r * num_rows + col ∈ c -> r ∈ rows ->
  S (size (col_loop N num_rows col rows c)) <= size c + length rows.
Proof.
  revert c. induction rows as [|i rows IH]; intros c Hin Hr.
  - by apply elem_of_nil in Hr.
  - simpl. destruct (decide (i = r)) as [->|Hne].
    + rewrite (size_add_in c _ Hin).
      pose proof (col_loop_size col rows c).
      case_match; lia.
    + apply elem_of_cons in Hr as [->|Hr]; [done|].
      case_match.
      * pose proof (IH c Hin Hr). lia.
      * pose proof (IH (c ∪ {[i * num_rows + col]})
                       ltac:(set_solver) Hr).
        pose proof (size_add_le c (i * num_rows + col)). lia.
Qed.

End Loops.


Section Grid.
Variables N id : nat.
Hypothesis HN : 1 <= N.
Hypothesis Hid : id < N.

Let m := ceil_sqrt N.

Lemma own_cell : id / m * m + id mod m = id /\ id mod m < m /\ id / m < m.
Proof.
  destruct (ceil_sqrt_bounds N HN) as (H1 & _ & Hhi). fold m in H1, Hhi.
  pose proof (Nat.div_mod id m ltac:(lia)).
  pose proof (Nat.mod_upper_bound id m ltac:(lia)).
  split; [lia|]. split; [done|].
  apply Nat.Div0.div_lt_upper_bound. lia.
Qed.

Lemma grid_set_own : id ∈ grid_set N id.
Proof.
  destruct own_cell as (Hcell & Hcol & Hrow).
  unfold grid_set. fold m. apply col_loop_mono.
  rewrite <- Hcell at 1. apply row_loop_seq_in; lia.
Qed.

Lemma grid_set_range x : x ∈ grid_set N id -> x < N.
Proof.
  unfold grid_set. fold m.
  intros [Hx|Hx]%col_loop_range; [|done].
  apply row_loop_range in Hx as [Hx|Hx]; [set_solver|done].
Qed.

Lemma grid_set_size : size (grid_set N id) <= 2 * m - 1.
Proof.
  destruct own_cell as (Hcell & Hcol & Hrow).
  unfold grid_set. fold m.
  pose proof (col_loop_size_shared N m (id mod m) (seq 0 m)
                (row_loop N m (id / m) (seq 0 m) ∅) (id / m)) as Hc.
  pose proof (row_loop_size N m (id / m) (seq 0 m) ∅) as Hr.
  rewrite length_seq in *. rewrite size_empty in Hr.
  assert (id / m * m + id mod m ∈ row_loop N m (id / m) (seq 0 m) ∅)
    as Hown by (apply row_loop_seq_in; lia).
  assert (id / m ∈ seq 0 m) as Hseq by (apply elem_of_seq; lia).
  specialize (Hc Hown Hseq). lia.
Qed.

End Grid.

Section Pad.
Variable target : nat.

Lemma pad_loop_unfold draws c :
  pad_loop target draws c =
  if size c <? target then
    match draws with
    | [] => None
    | r :: draws' => pad_loop target draws' (c ∪ {[r]})
    end
  else Some c.
Proof. destruct draws; reflexivity. Qed.

(** The padding stops at exactly the target, when it starts below it. *)
Lemma pad_loop_size draws c c' :
  size c <= target -> pad_loop target draws c = Some c' -> size c' = target.
Proof.
  revert c. induction draws as [|r draws IH]; intros c Hle;
    rewrite pad_loop_unfold; destruct (Nat.ltb_spec (size c) target);
    try discriminate; try (intros [= <-]; lia).
  apply IH. pose proof (size_add_le c r). lia.
Qed.

Lemma pad_loop_content draws c c' :
  pad_loop target draws c = Some c' ->
  c ⊆ c' /\ forall x, x ∈ c' -> x ∈ c \/ x ∈ draws.
Proof.
  revert c. induction draws as [|r draws IH]; intros c;
    rewrite pad_loop_unfold; destruct (Nat.ltb_spec (size c) target);
    try discriminate; try (intros [= <-]; split; [done|auto]).
  intros [Hsub Hin]%IH. split; [set_solver|].
  intros x [Hx|Hx]%Hin; [|right; by constructor].
  set_unfold in Hx. destruct Hx as [Hx| ->]; [auto|right; by constructor].
Qed.

(** The loop goes on exactly as long as the set with all the draws made so
    far is below the target. *)
Lemma pad_loop_None draws c :
  pad_loop target draws c = None <->
  size (c ∪ list_to_set draws) < target.
Proof.
  revert c. induction draws as [|r draws IH]; intros c;
    rewrite pad_loop_unfold; destruct (Nat.ltb_spec (size c) target).
  - simpl. rewrite (right_id_L ∅ (∪)). split; [done|done].
  - simpl. rewrite (right_id_L ∅ (∪)). split; [done|lia].
  - rewrite IH. simpl.
    replace (c ∪ {[r]} ∪ list_to_set draws)
      with (c ∪ ({[r]} ∪ list_to_set draws)) by set_solver. done.
  - split; [done|]. intros Hlt.
    assert (size c <= size (c ∪ list_to_set (r :: draws)))
      by (apply subseteq_size; set_solver).
    lia.
Qed.

End Pad.

(** Partial correctness of [__form_colleagues], for every node count and
    every sequence of draws on which the padding stops. *)
Lemma form_colleagues_returns (N id : nat) (draws : list nat) (cs : list nat) :
  1 <= N -> id < N -> valid_draws N draws ->
  form_colleagues N id draws = Some cs ->
  exists c, padded_set N id draws = Some c /\
            size c = 2 * ceil_sqrt N - 1 /\ (id ∈ c) /\
            cs = elements (c ∖ {[id]}) /\
            length cs = 2 * ceil_sqrt N - 2 /\
            (id ∉ cs) /\ NoDup cs /\ (forall x, x ∈ cs -> x < N).
Proof.
  intros HN Hid Hdraws. unfold form_colleagues.
  destruct (padded_set N id draws) as [c|] eqn:Hpad; [|discriminate].
  simpl. intros [= <-]. exists c. unfold padded_set in Hpad.
  pose proof (pad_loop_size _ _ _ _ (grid_set_size N id HN Hid) Hpad) as Hsz.
  pose proof (pad_loop_content _ _ _ _ Hpad) as [Hsub Hin].
  assert (id ∈ c) as Hown by (apply Hsub, grid_set_own; done).
  split; [done|]. split; [done|]. split; [done|]. split; [done|].
  split; [|split; [|split]].
  - change (length (elements (c ∖ {[id]}))) with (size (c ∖ {[id]})).
    rewrite size_difference by set_solver. rewrite size_singleton. lia.
  - rewrite elem_of_elements. set_solver.
  - apply NoDup_elements.
  - intros x [Hx _]%elem_of_elements%elem_of_difference.
    apply Hin in Hx as [Hx|Hx]; [by eapply grid_set_range|].
    unfold valid_draws in Hdraws. rewrite Forall_forall in Hdraws. auto.
Qed.

(** The padding stops on exactly those draws that, with the ids of the row
    and the column, make up the target number of distinct ids. *)
Lemma padded_set_is_Some (N id : nat) (draws : list nat) :
  is_Some (padded_set N id draws) <->
  2 * ceil_sqrt N - 1 <= size (grid_set N id ∪ list_to_set draws).
Proof.
  unfold padded_set.
  pose proof (pad_loop_None (2 * ceil_sqrt N - 1) draws (grid_set N id)) as H.
  destruct (pad_loop _ draws (grid_set N id)) as [c|].
  - split; [|by eauto]. intros _.
    destruct (Nat.le_gt_cases (2 * ceil_sqrt N - 1)
                (size (grid_set N id ∪ list_to_set draws))) as [Hle|Hgt];
      [done|].
    apply H in Hgt. discriminate.
  - split; [by intros [? ?]|]. intros Hle.
    assert (size (grid_set N id ∪ list_to_set draws) < 2 * ceil_sqrt N - 1)
      by (by apply H).
    lia.
Qed.

(** For every node count other than 2, draws that cover [0, N) are
    enough. *)
Lemma covering_draws_suffice (N id : nat) (draws : list nat) :
  1 <= N -> N <> 2 -> (forall k, k < N -> k ∈ draws) ->
  2 * ceil_sqrt N - 1 <= size (grid_set N id ∪ list_to_set draws).
Proof.
  intros HN H2 Hcover.
  pose proof (target_le_N N HN H2).
  assert (size (list_to_set (seq 0 N) : gset nat)
          <= size (grid_set N id ∪ list_to_set draws)) as Hle.
  { apply subseteq_size. intros x Hx. apply elem_of_list_to_set in Hx.
    apply elem_of_seq in Hx. apply elem_of_union_r, elem_of_list_to_set.
    apply Hcover. lia. }
  rewrite size_list_to_set in Hle by apply NoDup_seq.
  rewrite length_seq in Hle. lia.
Qed.

(** C3 (as amended): for N >= 1 and a node id i in [0, N), when the ids of
    the row and column of i and the draws together number at least
    2*ceil(sqrt N) - 1, quorum construction returns; the set after the
    union-and-pad step has size exactly 2*ceil(sqrt N) - 1 and contains i,
    and the colleagues returned are that set without i:
    2*ceil(sqrt N) - 2 distinct ids of [0, N), none of them i. *)
Theorem form_colleagues_quorum (N id : nat) (draws : list nat) :
  1 <= N -> id < N -> valid_draws N draws ->
  2 * ceil_sqrt N - 1 <= size (grid_set N id ∪ list_to_set draws) ->
  exists c cs,
    padded_set N id draws = Some c /\
    size c = 2 * ceil_sqrt N - 1 /\ (id ∈ c) /\
    form_colleagues N id draws = Some cs /\
    cs = elements (c ∖ {[id]}) /\
    length cs = 2 * ceil_sqrt N - 2 /\
    (id ∉ cs) /\ NoDup cs /\ (forall x, x ∈ cs -> x < N).
Proof.
  intros HN Hid Hdraws Henough.
  apply padded_set_is_Some in Henough as [c Hc].
  assert (form_colleagues N id draws = Some (elements (c ∖ {[id]}))) as Hcs
    by (unfold form_colleagues; by rewrite Hc).
  destruct (form_colleagues_returns N id draws _ HN Hid Hdraws Hcs)
    as (c' & Hc' & Hsz & Hown & _ & Hlen & Hnot & Hnd & Hrange).
  rewrite Hc in Hc'. injection Hc' as <-.
  exists c, (elements (c ∖ {[id]})). repeat split; done.
Qed.

Lemma form_colleagues_quorum_witness :
  exists c cs,
    padded_set 5 4 [0; 1; 2; 3; 4] = Some c /\
    size c = 2 * ceil_sqrt 5 - 1 /\ (4 ∈ c) /\
    form_colleagues 5 4 [0; 1; 2; 3; 4] = Some cs /\
    cs = elements (c ∖ {[4]}) /\
    length cs = 2 * ceil_sqrt 5 - 2 /\
    (4 ∉ cs) /\ NoDup cs /\ (forall x, x ∈ cs -> x < 5).
Proof.
  apply (form_colleagues_quorum 5 4 [0; 1; 2; 3; 4]).
  - lia.
  - lia.
  - unfold valid_draws. repeat constructor; lia.
  - vm_compute. lia.
Defined.

(** C3 (as stated) fails for N = 4, i = 0: the set after the union-and-pad
    step has 2*ceil(sqrt 4) - 1 = 3 ids but contains 0, and the colleagues
    returned do not contain 0 but are two ids, not 3. *)
Lemma colleagues_size_four_nodes :
  exists c cs,
    padded_set 4 0 [] = Some c /\ size c = 3 /\ (0 ∈ c) /\
    form_colleagues 4 0 [] = Some cs /\ (0 ∉ cs) /\
    length cs = 2 /\ length cs <> 2 * ceil_sqrt 4 - 1.
Proof.
  exists {[0; 1; 2]}, [2; 1].
  split; [by vm_compute|]. split; [by vm_compute|].
  split; [set_solver|]. split; [by vm_compute|].
  split; [set_solver|]. split; [done|]. vm_compute. lia.
Qed.

(** C4: with N = 2 the padding loop never stops, whatever [random.randint]
    returns: the target is 3 and [0, 2) has two ids. *)
Theorem padding_two_nodes_never_stops (id : nat) (draws : list nat) :
  id < 2 -> valid_draws 2 draws ->
  padded_set 2 id draws = None /\ form_colleagues 2 id draws = None.
Proof.
  intros Hid Hdraws.
  assert (padded_set 2 id draws = None) as Hpad.
  { unfold padded_set. apply pad_loop_None. rewrite ceil_sqrt_2.
    assert (grid_set 2 id ∪ list_to_set draws ⊆ list_to_set (seq 0 2)) as Hsub.
    { intros x [Hx|Hx]%elem_of_union; apply elem_of_list_to_set, elem_of_seq.
      - apply grid_set_range in Hx; lia.
      - apply elem_of_list_to_set in Hx. unfold valid_draws in Hdraws.
        rewrite Forall_forall in Hdraws. apply Hdraws in Hx. lia. }
    apply subseteq_size in Hsub.
    rewrite size_list_to_set in Hsub by apply NoDup_seq.
    rewrite length_seq in Hsub. lia. }
  split; [done|]. unfold form_colleagues. by rewrite Hpad.
Qed.

Lemma padding_two_nodes_never_stops_witness :
  padded_set 2 0 [0; 1; 1; 0] = None /\ form_colleagues 2 0 [0; 1; 1; 0] = None.
Proof.
  apply (padding_two_nodes_never_stops 0 [0; 1; 1; 0]).
  - lia.
  - unfold valid_draws. repeat constructor; lia.
Defined.

End QuorumSpec.

Module NodeSpec.
Import Codec NodeM.

(** *** Serialized messages are frames *)

Lemma no_brace_app (a b : pystr) :
  no_brace (a ++ b) = no_brace a && no_brace b.
Proof. apply forallb_app. Qed.

Lemma uint_chars_no_brace (d : Decimal.uint) : no_brace (uint_chars d) = true.
Proof. induction d; simpl; done. Qed.

Lemma json_nat_no_brace (n : nat) : no_brace (json_nat n) = true.
Proof. apply uint_chars_no_brace. Qed.

Lemma json_int_no_brace (z : Z) : no_brace (json_int z) = true.
Proof.
  unfold json_int. destruct (Z.to_int z); [|simpl]; apply uint_chars_no_brace.
Qed.

Lemma json_opt_nat_no_brace (d : option nat) : no_brace (json_opt_nat d) = true.
Proof. destruct d; [apply json_nat_no_brace|reflexivity]. Qed.

Lemma json_data_no_brace (d : option prio) : no_brace (json_data d) = true.
Proof.
  destruct d as [[t s]|]; [|reflexivity]. unfold json_data.
  rewrite !no_brace_app, json_int_no_brace, json_nat_no_brace. reflexivity.
Qed.

Lemma known_type_inv (t : string) :
  known_type t = true -> t ∈ message_types.
Proof.
  unfold known_type. intros (t' & Hin & ->%String.eqb_eq)%existsb_exists.
  by apply list_elem_of_In.
Qed.

Lemma json_type_no_brace (t : string) :
  known_type t = true -> no_brace (json_str t) = true.
Proof.
  intros Hin%known_type_inv. unfold message_types in Hin.
  repeat (apply elem_of_cons in Hin as [->|Hin]; [reflexivity|]).
  by apply elem_of_nil in Hin.
Qed.

Lemma to_json_items_no_brace (m : Message) :
  known_type (msg_type m) = true -> no_brace (to_json_items m) = true.
Proof.
  intros Hk. unfold to_json_items, json_item.
  rewrite !no_brace_app.
  rewrite (json_type_no_brace _ Hk), json_nat_no_brace, json_opt_nat_no_brace,
    json_int_no_brace, json_data_no_brace.
  reflexivity.
Qed.

Lemma no_brace_cons_inv (c : ascii) (s : pystr) :
  no_brace (c :: s) = true ->
  c <> open_brace /\ c <> close_brace /\ no_brace s = true.
Proof.
  simpl. intros [[H1 H2]%andb_prop Hs]%andb_prop.
  destruct (Ascii.eqb_spec c open_brace), (Ascii.eqb_spec c close_brace);
    done.
Qed.

Lemma str_find_cons (sub : pystr) (c : ascii) (s : pystr) :
  str_find sub (c :: s) =
  if startswith sub (c :: s) then Some 0 else S <$> str_find sub s.
Proof. reflexivity. Qed.

(** A string whose only braces are a last '}' holds no "}{". *)
Lemma str_find_no_brace (body : pystr) :
  forall c, c <> close_brace -> no_brace body = true ->
            str_find sep (c :: body ++ [close_brace]) = None.
Proof.
  induction body as [|b body IH]; intros c Hc Hb.
  - cbn [app str_find startswith sep].
    destruct (Ascii.eqb_spec close_brace c); [congruence|]. reflexivity.
  - apply no_brace_cons_inv in Hb as (_ & Hb & Hbody).
    change (c :: (b :: body) ++ [close_brace])
      with (c :: b :: body ++ [close_brace]).
    rewrite str_find_cons. unfold sep at 1. cbn [startswith].
    destruct (Ascii.eqb_spec close_brace c); [congruence|].
    rewrite (IH b Hb Hbody). reflexivity.
Qed.

(** What [Message.to_json] writes for a message of the protocol is a frame. *)
Lemma to_json_is_frame (m : Message) :
  known_type (msg_type m) = true -> is_frame (to_json m).
Proof.
  intros Hk. unfold is_frame, to_json. split; [reflexivity|]. split.
  - by rewrite app_comm_cons, last_snoc.
  - apply str_find_no_brace; [discriminate|by apply to_json_items_no_brace].
Qed.

(** X3: the framing round trip on what the senders write: a stream of one
    or more serialized messages splits into those messages. *)
Lemma parse_to_json (ms : list Message) :
  ms <> [] -> Forall (fun m => known_type (msg_type m) = true) ms ->
  parse (concat (map to_json ms)) = Returned (map to_json ms).
Proof.
  intros Hne Hk. unfold parse.
  rewrite CodecSpec.parse_loop_frames; [done| | |lia].
  - by destruct ms.
  - apply Forall_map. eapply Forall_impl; [exact Hk|].
    intros m. apply to_json_is_frame.
Qed.

(** *** The handlers *)

Lemma prio_ltb_asym (a b : prio) : prio_ltb a b = true -> prio_ltb b a = false.
Proof.
  destruct a as [at_ as_], b as [bt bs]. unfold prio_ltb. simpl.
  destruct (Z.ltb_spec at_ bt), (Z.ltb_spec bt at_),
    (Z.eqb_spec at_ bt), (Z.eqb_spec bt at_),
    (Nat.ltb_spec as_ bs), (Nat.ltb_spec bs as_); simpl; try done; lia.
Qed.

(** [put] adds one entry and keeps the others. *)
Lemma pq_put_perm (x : prio) (q : pqueue) : pq_put x q ≡ₚ x :: q.
Proof.
  induction q as [|y q IH]; simpl; [done|].
  destruct (prio_ltb y x); [|done].
  rewrite IH. apply Permutation_swap.
Qed.

Lemma elem_of_pq_put (x y : prio) (q : pqueue) :
  y ∈ pq_put x q <-> y = x \/ y ∈ q.
Proof. rewrite pq_put_perm. apply elem_of_cons. Qed.

Lemma request_handler_assert (n : Node) (msg : Message) :
  assert_holds (request_handler n msg).2.
Proof.
  unfold request_handler, send_message, assert_holds.
  repeat case_match; simpl; by repeat constructor.
Qed.

Lemma grant_next_assert (n n' : Node) (out : outbox) :
  grant_next n = Some (n', out) -> assert_holds out.
Proof.
  unfold grant_next, send_message, assert_holds.
  repeat case_match; simpl; intros; simplify_eq; by repeat constructor.
Qed.

Lemma yield_handler_assert (n : Node) (msg : Message) :
  assert_holds (yield_handler n msg).2.
Proof.
  unfold yield_handler.
  destruct (grant_next _) as [[n' out]|] eqn:E; simpl;
    [by eapply grant_next_assert|constructor].
Qed.

Lemma release_handler_assert (n : Node) (msg : Message) :
  assert_holds (release_handler n msg).2.
Proof.
  unfold release_handler.
  destruct (grant_next _) as [[n' out]|] eqn:E; simpl;
    [by eapply grant_next_assert|constructor].
Qed.

Lemma inquire_handler_assert (n : Node) (msg : Message) :
  assert_holds (inquire_handler n msg).2.
Proof.
  unfold inquire_handler, send_message, assert_holds.
  repeat case_match; simpl; by repeat constructor.
Qed.

(** The two assertions in the loop of [multicast] hold as well. *)
Lemma multicast_respects_assert (n : Node) (msg : Message) (group : list nat) :
  assert_holds (multicast n msg group).2 /\
  Forall (fun dm => ts dm.2 = lamport_ts (multicast n msg group).1)
         (multicast n msg group).2.
Proof.
  unfold multicast, assert_holds. simpl.
  split; apply Forall_map, Forall_forall; done.
Qed.

(** X9: whatever the node's state and the message, every write a handler
    makes passes the test [assert dest == msg.dest] of [send_message]. *)
Lemma sends_respect_assert (n : Node) (msg : Message) :
  assert_holds (p_sent (process_message n msg)).
Proof.
  unfold process_message, dispatch.
  set (n1 := receive_tick n msg).
  pose proof (request_handler_assert n1 msg).
  pose proof (yield_handler_assert n1 msg).
  pose proof (release_handler_assert n1 msg).
  pose proof (inquire_handler_assert n1 msg).
  repeat case_match; simplify_eq; simpl in *; try done; constructor.
Qed.

(** C5: the REQUEST handler, with p = (msg.ts, msg.src) and g = grants_sent:
    if g is null it sends GRANT to msg.src and sets grants_sent to p; if
    g < p it enqueues p and sends FAILED to msg.src; if g > p it enqueues p
    and sends INQUIRE to g.src with data = p.  Every reply is stamped with
    the clock after its send tick.  The state the handler leaves is given
    field by field: [grants_sent] and [queue] in each case, and in every
    case the clock one above and all other fields as before. *)
Theorem request_handler_cases (n : Node) (msg : Message) :
  let p := (ts msg, src msg) in
  let r := request_handler n msg in
  (grants_sent n = None ->
     r.2 = [(src msg,
             mkMessage GRANT (id n) (Some (src msg)) (lamport_ts n + 1) None)]
     /\ grants_sent r.1 = Some p
     /\ queue r.1 = queue n)
  /\ (forall g, grants_sent n = Some g -> prio_ltb g p = true ->
        r.2 = [(src msg,
                mkMessage FAILED (id n) (Some (src msg)) (lamport_ts n + 1)
                          None)]
        /\ queue r.1 = pq_put p (queue n)
        /\ queue r.1 ≡ₚ p :: queue n
        /\ grants_sent r.1 = Some g)
  /\ (forall g, grants_sent n = Some g -> prio_ltb p g = true ->
        r.2 = [(g.2,
                mkMessage INQUIRE (id n) (Some g.2) (lamport_ts n + 1)
                          (Some p))]
        /\ queue r.1 = pq_put p (queue n)
        /\ queue r.1 ≡ₚ p :: queue n
        /\ grants_sent r.1 = Some g)
  /\ (lamport_ts r.1 = (lamport_ts n + 1)%Z
      /\ id r.1 = id n /\ colleagues r.1 = colleagues n
      /\ grants_received r.1 = grants_received n
      /\ yielded r.1 = yielded n /\ failed r.1 = failed n
      /\ in_CS r.1 = in_CS n /\ wakeupcounter r.1 = wakeupcounter n).
Proof.
  intros p r. subst r. unfold request_handler, send_message.
  split; [|split; [|split]].
  - intros ->. simpl. done.
  - intros [hp_ts hp_src] Hg Hlt. rewrite Hg. fold p. rewrite Hlt. simpl.
    split_and!; [done|done|apply pq_put_perm|done].
  - intros [hp_ts hp_src] Hg Hlt. rewrite Hg. fold p.
    rewrite (prio_ltb_asym _ _ Hlt). simpl.
    split_and!; [done|done|apply pq_put_perm|done].
  - destruct (grants_sent n) as [[hp_ts hp_src]|]; [|simpl; done].
    destruct (prio_ltb (hp_ts, hp_src) (ts msg, src msg)); simpl; done.
Qed.

Lemma request_handler_cases_witness :
  (request_handler
     (mkNode 1 3%Z [0; 3] [] (Some (5%Z, 0)) ∅ false false false 0)
     (mkMessage REQUEST 3 (Some 1) 2%Z None)).2 =
    [(0, mkMessage INQUIRE 1 (Some 0) 4%Z (Some (2%Z, 3)))] /\
  queue (request_handler
     (mkNode 1 3%Z [0; 3] [] (Some (5%Z, 0)) ∅ false false false 0)
     (mkMessage REQUEST 3 (Some 1) 2%Z None)).1 = [(2%Z, 3)] /\
  grants_sent (request_handler
     (mkNode 1 3%Z [0; 3] [] (Some (5%Z, 0)) ∅ false false false 0)
     (mkMessage REQUEST 3 (Some 1) 2%Z None)).1 = Some (5%Z, 0).
Proof.
  destruct (request_handler_cases
              (mkNode 1 3%Z [0; 3] [] (Some (5%Z, 0)) ∅ false false false 0)
              (mkMessage REQUEST 3 (Some 1) 2%Z None)) as (_ & _ & Hinq & _).
  destruct (Hinq (5%Z, 0)) as (Hout & Hq & _ & Hg); [reflexivity|reflexivity|].
  split; [exact Hout|]. split; [exact Hq|exact Hg].
Defined.

Lemma request_handler_clock (n : Node) (msg : Message) :
  lamport_ts (request_handler n msg).1 = (lamport_ts n + 1)%Z /\
  exists d m, (request_handler n msg).2 = [(d, m)] /\
              ts m = (lamport_ts n + 1)%Z.
Proof.
  unfold request_handler, send_message.
  repeat case_match; simplify_eq; simpl; eauto.
Qed.

Lemma grant_next_clock (n n' : Node) (out : outbox) :
  grant_next n = Some (n', out) ->
  lamport_ts n' = (lamport_ts n + 1)%Z /\
  exists d m, out = [(d, m)] /\ ts m = (lamport_ts n + 1)%Z.
Proof.
  unfold grant_next, send_message.
  repeat case_match; intros; simplify_eq; simpl; eauto.
Qed.

Lemma clear_grant_clock (n : Node) (msg : Message) :
  lamport_ts (clear_grant_if_equal n msg) = lamport_ts n.
Proof. unfold clear_grant_if_equal. by repeat case_match. Qed.

Lemma inquire_handler_clock (n : Node) (msg : Message) :
  (lamport_ts (inquire_handler n msg).1 =
     lamport_ts n + Z.of_nat (length (inquire_handler n msg).2))%Z /\
  Forall (fun dm => ts dm.2 = (lamport_ts n + 1)%Z) (inquire_handler n msg).2.
Proof.
  unfold inquire_handler, send_message.
  repeat case_match; simpl; split; try lia; by repeat constructor.
Qed.

Lemma dispatch_clock (n : Node) (msg : Message) :
  ticks_per_send (lamport_ts n) (dispatch n msg).
Proof.
  unfold dispatch, ticks_per_send.
  destruct (String.eqb (msg_type msg) REQUEST).
  { destruct (request_handler_clock n msg) as (Hc & d & m & Ho & Ht).
    destruct (request_handler n msg) as [n' out]. simpl in *. subst out.
    simpl. split; [lia|by repeat constructor]. }
  destruct (String.eqb (msg_type msg) YIELD).
  { unfold yield_handler.
    destruct (grant_next _) as [[n' out]|] eqn:E; simpl.
    - apply grant_next_clock in E as (Hc & d & m & -> & Ht).
      rewrite clear_grant_clock in Hc, Ht. simpl in *.
      split; [lia|by repeat constructor].
    - rewrite clear_grant_clock. simpl. split; [lia|constructor]. }
  destruct (String.eqb (msg_type msg) RELEASE).
  { unfold release_handler.
    destruct (grant_next _) as [[n' out]|] eqn:E; simpl.
    - apply grant_next_clock in E as (Hc & d & m & -> & Ht).
      simpl in Hc, Ht. rewrite clear_grant_clock in Hc, Ht. simpl.
      split; [lia|by repeat constructor].
    - rewrite clear_grant_clock. split; [lia|constructor]. }
  destruct (String.eqb (msg_type msg) INQUIRE).
  { pose proof (inquire_handler_clock n msg) as [Hc Ht].
    destruct (inquire_handler n msg) as [n' out]. done. }
  destruct (String.eqb (msg_type msg) GRANT).
  { simpl. split; [lia|constructor]. }
  destruct (String.eqb (msg_type msg) FAILED).
  { simpl. split; [lia|constructor]. }
  simpl. split; [lia|constructor].
Qed.

(** A message of one of the six types never takes the [case _] branch. *)
Lemma dispatch_known_type (n : Node) (msg : Message) :
  known_type (msg_type msg) = true -> p_raised (dispatch n msg) = None.
Proof.
  intros Hin%known_type_inv. unfold message_types in Hin. unfold dispatch.
  repeat (apply elem_of_cons in Hin as [->|Hin];
          [simpl; by repeat case_match|]).
  by apply elem_of_nil in Hin.
Qed.

(** C6: a node whose clock is c and that receives m has clock
    max(c, m.ts) + 1 right after the receive step; the update comes before
    the dispatch, so the handler runs on the updated clock, whatever the
    message type (also an unknown one).  Each reply the handler then writes
    ticks the clock once more and carries max(c, m.ts) + 2. *)
Theorem process_message_clock (n : Node) (msg : Message) :
  let c' := (Z.max (lamport_ts n) (ts msg) + 1)%Z in
  lamport_ts (receive_tick n msg) = c' /\
  process_message n msg = dispatch (receive_tick n msg) msg /\
  ticks_per_send c' (process_message n msg).
Proof.
  intros c'. split; [reflexivity|]. split; [reflexivity|].
  apply (dispatch_clock (receive_tick n msg) msg).
Qed.

(** The clock-merge example: a node at clock 4 that receives a GRANT stamped 10
    ends at clock 11; had it been a REQUEST, the reply would make it 12. *)
Example clock_merge_4_10 :
  let n := mkNode 1 4%Z [0; 3] [] None ∅ false false false 0 in
  lamport_ts (p_node (process_message n (mkMessage GRANT 0 (Some 1) 10%Z None)))
    = 11%Z /\
  lamport_ts (receive_tick n (mkMessage REQUEST 0 (Some 1) 10%Z None)) = 11%Z /\
  lamport_ts (p_node (process_message n (mkMessage REQUEST 0 (Some 1) 10%Z None)))
    = 12%Z.
Proof. repeat split. Qed.

(** What the test of the wait loop lets through: a node enters as soon as
    it holds as many grants (its own included) as it has colleagues. *)
Lemma run_enter_spec (n : Node) :
  (length (colleagues n) <= size (grants_received n) ->
     run_enter n = Some (set_in_CS n true)) /\
  (size (grants_received n) < length (colleagues n) -> run_enter n = None).
Proof.
  unfold run_enter, must_wait.
  destruct (Nat.ltb_spec (size (grants_received n)) (length (colleagues n)));
    split; intros; done || lia.
Qed.

(** The GRANT handler notifies under the same test. *)
Lemma grant_handler_notifies (n : Node) (msg : Message) :
  (grant_handler n msg).2 = true <->
  length (colleagues n) <= size (grants_received n ∪ {[src msg]}).
Proof.
  unfold grant_handler. simpl.
  destruct (Nat.ltb_spec (size (grants_received n ∪ {[src msg]}))
                         (length (colleagues n))); simpl; split; intros;
    done || lia.
Qed.

(** C1: node 0 of a system of 4 nodes (colleagues 1 and 2), after its
    self-grant and REQUEST, receives the GRANT of node 1 alone: the handler
    notifies the condition, the wait loop ends and in_CS is set, with
    |grants_received| = 2 and |colleagues| + 1 = 3. *)
Theorem enters_with_a_grant_missing :
  let n0 := (run_request (init_node 0 [2; 1])).1 in
  let p := process_message n0 (mkMessage GRANT 1 (Some 0) 3%Z None) in
  Quorum.form_colleagues 4 0 [] = Some (colleagues n0) /\
  run_enter n0 = None /\
  p_notified p = true /\
  in_CS <$> run_enter (p_node p) = Some true /\
  size (grants_received (p_node p)) = 2 /\
  length (colleagues (p_node p)) + 1 = 3.
Proof. vm_compute. repeat split. Qed.

End NodeSpec.

Module SystemSpec.
Import NodeM System.

Section NodeInvariant.
Variable j : nat.

Lemma Forall_pq_put (P : prio -> Prop) (x : prio) (q : pqueue) :
  P x -> Forall P q -> Forall P (pq_put x q).
Proof.
  intros Hx Hq. induction Hq as [|y q Hy Hq IH]; simpl.
  - by repeat constructor.
  - destruct (prio_ltb y x); by repeat constructor.
Qed.

Lemma Forall_purge (P : prio -> Prop) (s : nat) (q new_queue : pqueue) :
  Forall P q -> Forall P new_queue -> Forall P (purge s q new_queue).
Proof.
  intros Hq. revert new_queue.
  induction Hq as [|[q_ts q_src] q Hy Hq IH]; intros new_queue Hn; simpl;
    [done|].
  destruct (q_src =? s); [by apply IH|]. apply IH. by apply Forall_pq_put.
Qed.

(** After the purge no entry of the released source is left. *)
Lemma purge_no_src (s : nat) (q new_queue : pqueue) :
  Forall (fun e : prio => e.2 <> s) new_queue ->
  Forall (fun e : prio => e.2 <> s) (purge s q new_queue).
Proof.
  revert new_queue. induction q as [|[q_ts q_src] q IH];
    intros new_queue Hn; simpl; [done|].
  destruct (Nat.eqb_spec q_src s); [by apply IH|].
  apply IH. by apply Forall_pq_put.
Qed.

Lemma receive_tick_ok n msg : node_ok j n -> node_ok j (receive_tick n msg).
Proof. done. Qed.

Lemma request_handler_ok n msg :
  node_ok j n -> src msg <> j ->
  node_ok j (request_handler n msg).1 /\ out_ok j (request_handler n msg).2.
Proof.
  intros (Hid & Hcol & Hq & Hg) Hsrc.
  unfold request_handler, send_message, node_ok, out_ok.
  destruct (grants_sent n) as [[hp_ts hp_src]|] eqn:Eg.
  - specialize (Hg _ eq_refl). simpl in Hg.
    destruct (prio_ltb _ _); simpl; rewrite ?Eg.
    + repeat split; try done; [by apply Forall_pq_put|naive_solver|].
      by repeat constructor.
    + repeat split; try done; [by apply Forall_pq_put|naive_solver|].
      by repeat constructor.
  - simpl. repeat split; try done; [naive_solver|]. by repeat constructor.
Qed.

Lemma clear_grant_ok n msg :
  node_ok j n -> node_ok j (clear_grant_if_equal n msg).
Proof.
  intros Hn. unfold clear_grant_if_equal.
  destruct (grants_sent n) as [g|]; [|done].
  destruct (prio_eqb _ g); [|done].
  destruct Hn as (Hid & Hcol & Hq & Hg). by repeat split.
Qed.

Lemma grant_next_ok n n' out :
  node_ok j n -> grant_next n = Some (n', out) ->
  node_ok j n' /\ out_ok j out.
Proof.
  intros (Hid & Hcol & Hq & Hg). unfold grant_next, send_message.
  destruct (queue n) as [|[q_ts q_src] q'] eqn:Eq; simpl; [done|].
  intros [= <- <-]. apply Forall_cons in Hq as [Hhd Hq]. simpl in Hhd.
  unfold node_ok, out_ok. simpl.
  repeat split; try done; [naive_solver|]. by repeat constructor.
Qed.

Lemma yield_handler_ok n msg :
  node_ok j n -> src msg <> j ->
  node_ok j (yield_handler n msg).1 /\ out_ok j (yield_handler n msg).2.
Proof.
  intros Hn Hsrc. unfold yield_handler.
  assert (node_ok j (clear_grant_if_equal
            (set_queue n (pq_put (ts msg, src msg) (queue n))) msg)) as Hn2.
  { apply clear_grant_ok. destruct Hn as (Hid & Hcol & Hq & Hg).
    repeat split; try done. by apply Forall_pq_put. }
  destruct (grant_next _) as [[n' out]|] eqn:E; simpl.
  - by eapply grant_next_ok.
  - split; [done|constructor].
Qed.

Lemma release_handler_ok n msg :
  node_ok j n ->
  node_ok j (release_handler n msg).1 /\ out_ok j (release_handler n msg).2.
Proof.
  intros Hn. unfold release_handler.
  pose proof (clear_grant_ok n msg Hn) as (Hid & Hcol & Hq & Hg).
  set (n1 := clear_grant_if_equal n msg) in *.
  assert (node_ok j (set_queue n1 (purge (src msg) (queue n1) []))) as Hn2.
  { repeat split; try done. by apply Forall_purge. }
  destruct (grant_next _) as [[n' out]|] eqn:E; simpl.
  - by eapply grant_next_ok.
  - split; [|constructor]. destruct Hn2 as (? & ? & ? & ?).
    by repeat split.
Qed.

Lemma inquire_handler_ok n msg :
  node_ok j n -> src msg <> j ->
  node_ok j (inquire_handler n msg).1 /\ out_ok j (inquire_handler n msg).2.
Proof.
  intros (Hid & Hcol & Hq & Hg) Hsrc.
  unfold inquire_handler, send_message, node_ok, out_ok.
  repeat case_match; simpl; repeat split; try done; by repeat constructor.
Qed.

Lemma process_message_ok n msg :
  node_ok j n -> src msg <> j ->
  node_ok j (p_node (process_message n msg)) /\
  out_ok j (p_sent (process_message n msg)).
Proof.
  intros Hn Hsrc. unfold process_message, dispatch.
  apply (receive_tick_ok n msg) in Hn.
  set (n1 := receive_tick n msg) in *.
  destruct (String.eqb (msg_type msg) REQUEST).
  { pose proof (request_handler_ok n1 msg Hn Hsrc).
    by destruct (request_handler n1 msg). }
  destruct (String.eqb (msg_type msg) YIELD).
  { pose proof (yield_handler_ok n1 msg Hn Hsrc).
    by destruct (yield_handler n1 msg). }
  destruct (String.eqb (msg_type msg) RELEASE).
  { pose proof (release_handler_ok n1 msg Hn).
    by destruct (release_handler n1 msg). }
  destruct (String.eqb (msg_type msg) INQUIRE).
  { pose proof (inquire_handler_ok n1 msg Hn Hsrc).
    by destruct (inquire_handler n1 msg). }
  destruct Hn as (? & ? & ? & ?).
  destruct (String.eqb (msg_type msg) GRANT).
  { simpl. split; [by repeat split|constructor]. }
  destruct (String.eqb (msg_type msg) FAILED).
  { simpl. split; [by repeat split|constructor]. }
  simpl. split; [by repeat split|constructor].
Qed.

Lemma multicast_ok n msg :
  node_ok j n -> src msg = j -> known_type (msg_type msg) = true ->
  node_ok j (multicast n msg (colleagues n)).1 /\
  out_ok j (multicast n msg (colleagues n)).2.
Proof.
  intros (Hid & Hcol & Hq & Hg) Hsrc Hk. unfold multicast. simpl.
  split; [by repeat split|]. unfold out_ok, msg_ok.
  apply Forall_map, Forall_forall. intros d Hd. simpl.
  split; [done|]. split; [|done]. intros ->. contradiction.
Qed.

Lemma run_request_ok n :
  node_ok j n -> node_ok j (run_request n).1 /\ out_ok j (run_request n).2.
Proof.
  intros Hn. unfold run_request.
  apply (multicast_ok (set_grants_received n _)); [|by destruct Hn|done].
  destruct Hn as (? & ? & ? & ?). by repeat split.
Qed.

Lemma run_release_ok n :
  node_ok j n -> node_ok j (run_release n).1 /\ out_ok j (run_release n).2.
Proof.
  intros Hn. unfold run_release.
  pose proof (multicast_ok n
    (mkMessage RELEASE (id n) None (lamport_ts n) None) Hn) as Hm.
  destruct (multicast _ _ _) as [n1 out]. simpl in *.
  destruct Hm as [(? & ? & ? & ?) Ho]; [by destruct Hn|done|].
  split; [by repeat split|done].
Qed.

Lemma run_enter_ok n n' : node_ok j n -> run_enter n = Some n' -> node_ok j n'.
Proof.
  intros (? & ? & ? & ?). unfold run_enter.
  destruct (must_wait n); [done|]. intros [= <-]. by repeat split.
Qed.

Lemma run_exit_ok n : node_ok j n -> node_ok j (run_exit n).
Proof. intros (? & ? & ? & ?). by repeat split. Qed.

End NodeInvariant.


Section SystemInvariant.

Lemma form_colleagues_not_self N i draws cs :
  Quorum.form_colleagues N i draws = Some cs -> i ∉ cs.
Proof.
  unfold Quorum.form_colleagues.
  destruct (Quorum.padded_set N i draws) as [c|]; [|done]. simpl.
  intros [= <-]. rewrite elem_of_elements. set_solver.
Qed.

Lemma nodes_ok_insert ns i n pc :
  nodes_ok ns -> node_ok i n -> nodes_ok (<[i := (n, pc)]> ns).
Proof.
  intros Hns Hn j n' pc' Hj.
  apply list_lookup_insert_Some in Hj as [(-> & [= <- <-] & _)|[_ Hj]];
    [done|by eapply Hns].
Qed.

Lemma chan_ok c i j : chans_ok c -> Forall (msg_ok i j) (chan c i j).
Proof.
  intros Hc. unfold chan. destruct (c !! (i, j)) as [l|] eqn:E; simpl;
    [by eapply Hc|constructor].
Qed.

Lemma chans_ok_insert c i j l :
  chans_ok c -> Forall (msg_ok i j) l -> chans_ok (<[(i, j) := l]> c).
Proof.
  intros Hc Hl i' j' l' Hlook.
  apply lookup_insert_Some in Hlook as [[[= <- <-] <-]|[_ Hlook]];
    [done|by eapply Hc].
Qed.

Lemma post_ok i out c : chans_ok c -> out_ok i out -> chans_ok (post i out c).
Proof.
  intros Hc Hout. revert c Hc. unfold post.
  induction Hout as [|[d m] out Hm Hout IH]; intros c Hc; simpl; [done|].
  apply IH. apply chans_ok_insert; [done|].
  apply Forall_app. split; [by apply chan_ok|].
  constructor; [exact Hm|constructor].
Qed.

Lemma init_nodes_ok N draws k ns :
  init_nodes N draws k = Some ns -> length ns = k /\ nodes_ok ns.
Proof.
  revert ns. induction k as [|k IH]; intros ns; simpl.
  - intros [= <-]. split; [done|]. intros j n pc Hj. done.
  - destruct (init_nodes N draws k) as [ns'|]; [|done]. simpl.
    destruct (Quorum.form_colleagues N k (draws k)) as [cs|] eqn:Ecs;
      [|done]. simpl.
    intros [= <-]. destruct (IH ns' eq_refl) as [Hlen Hns].
    split; [rewrite length_app; simpl; lia|].
    intros j n pc Hj.
    apply lookup_snoc_Some in Hj as [[_ Hj]|[-> [= <- <-]]];
      [by eapply Hns|].
    rewrite Hlen. repeat split; simpl; try done.
    by eapply form_colleagues_not_self.
Qed.

Lemma init_system_ok N draws s : init_system N draws = Some s -> sys_ok s.
Proof.
  unfold init_system.
  destruct (init_nodes N draws N) as [ns|] eqn:E; [|done]. simpl.
  intros [= <-]. split; simpl.
  - by apply init_nodes_ok in E as [_ ?].
  - intros i j l Hl. by rewrite lookup_empty in Hl.
Qed.

Lemma loop_step_ok i s s' : sys_ok s -> loop_step i s = Some s' -> sys_ok s'.
Proof.
  intros [Hns Hc]. unfold loop_step.
  destruct (nodes s !! i) as [[n pc]|] eqn:En; [|done].
  cbn -[run_request run_release run_enter run_exit post].
  pose proof (Hns _ _ _ En) as Hn.
  destruct pc.
  - destruct (wakeupcounter n <=? 2).
    + pose proof (run_request_ok i n Hn) as [Hn' Hout].
      destruct (run_request n) as [n' out]. intros [= <-]. split; simpl.
      * by apply nodes_ok_insert.
      * by apply post_ok.
    + intros [= <-]. split; simpl; [by apply nodes_ok_insert|done].
  - destruct (run_enter n) as [n'|] eqn:Ee; [|done]. simpl.
    intros [= <-]. split; simpl; [|done].
    apply nodes_ok_insert; [done|]. by eapply run_enter_ok.
  - intros [= <-]. split; simpl; [|done].
    apply nodes_ok_insert; [done|]. by apply run_exit_ok.
  - pose proof (run_release_ok i n Hn) as [Hn' Hout].
    destruct (run_release n) as [n' out]. intros [= <-]. split; simpl.
    + by apply nodes_ok_insert.
    + by apply post_ok.
  - done.
Qed.

Lemma deliver_step_ok i j s s' :
  sys_ok s -> deliver_step i j s = Some s' -> sys_ok s'.
Proof.
  intros [Hns Hc]. unfold deliver_step.
  destruct (nodes s !! j) as [[n pc]|] eqn:En; [|done].
  cbn -[process_message post chan].
  pose proof (Hns _ _ _ En) as Hn.
  pose proof (chan_ok _ i j Hc) as Hch.
  destruct (chan (chans s) i j) as [|m rest]; [done|].
  apply Forall_cons in Hch as [(Hsrc & Hne & Hk) Hrest].
  intros [= <-].
  destruct (process_message_ok j n m Hn) as [Hn' Hout]; [congruence|].
  split; simpl.
  - by apply nodes_ok_insert.
  - apply post_ok; [|done]. by apply chans_ok_insert.
Qed.

Lemma step_ok e s s' : sys_ok s -> step e s = Some s' -> sys_ok s'.
Proof.
  destruct e; simpl; [apply loop_step_ok|apply deliver_step_ok].
Qed.

Lemma run_trace_ok tr s s' : sys_ok s -> run_trace tr s = Some s' -> sys_ok s'.
Proof.
  revert s. induction tr as [|e tr IH]; intros s Hs; simpl.
  - by intros [= <-].
  - destruct (step e s) as [s1|] eqn:E; [|done]. simpl.
    apply IH. by eapply step_ok.
Qed.

Lemma reachable_ok N draws s : reachable N draws s -> sys_ok s.
Proof.
  intros (s0 & tr & Hinit & Hrun).
  eapply run_trace_ok; [|done]. by eapply init_system_ok.
Qed.

End SystemInvariant.

(** X18: in a reachable state the server of a node never raises on the
    message it reads, so [deliver_step] loses nothing by reading one
    message at a time. *)
Lemma deliver_never_raises N draws s i j n pc m rest :
  reachable N draws s -> nodes s !! j = Some (n, pc) ->
  chan (chans s) i j = m :: rest ->
  p_raised (process_message n m) = None.
Proof.
  intros [_ Hc]%reachable_ok _ Hch.
  pose proof (chan_ok _ i j Hc) as Hok. rewrite Hch in Hok.
  apply Forall_cons in Hok as [(_ & _ & Hk) _].
  by apply NodeSpec.dispatch_known_type.
Qed.

Lemma run_trace_reachable N draws s0 tr s :
  init_system N draws = Some s0 -> run_trace tr s0 = Some s ->
  reachable N draws s.
Proof. intros H0 Hrun. by exists s0, tr. Qed.

(** The state after [double_inquire]. *)
Lemma double_inquire_runs :
  exists s0 s,
    init_system 9 no_draws = Some s0 /\
    run_trace double_inquire s0 = Some s /\
    queue_of s 0 = [(7%Z, 3); (9%Z, 3)].
Proof.
  destruct (init_system 9 no_draws) as [s0|] eqn:E0; [|by vm_compute in E0].
  destruct (run_trace double_inquire s0) as [s|] eqn:E.
  - exists s0, s. split; [done|]. split; [done|].
    vm_compute in E0. injection E0 as <-.
    vm_compute in E. injection E as <-. by vm_compute.
  - vm_compute in E0. injection E0 as <-. by vm_compute in E.
Qed.

(** C2: with 4 nodes, under the schedule [crossing_requests], node 0 and
    node 3 are in the critical section at the same time, each holding the
    GRANT of one of its two colleagues only. *)
Theorem two_nodes_in_cs :
  exists s0 s,
    init_system 4 no_draws = Some s0 /\
    run_trace crossing_requests s0 = Some s /\
    reachable 4 no_draws s /\
    in_cs s 0 = true /\ in_cs s 3 = true.
Proof.
  destruct (init_system 4 no_draws) as [s0|] eqn:E0; [|by vm_compute in E0].
  destruct (run_trace crossing_requests s0) as [s|] eqn:E.
  - exists s0, s. split; [done|]. split; [done|].
    split; [by eapply run_trace_reachable|].
    vm_compute in E0. injection E0 as <-.
    vm_compute in E. injection E as <-. by vm_compute.
  - vm_compute in E0. injection E0 as <-. by vm_compute in E.
Qed.

(** C9 (as stated) fails: with 9 nodes, under the schedule
    [double_inquire], the queue of node 0 holds two entries of source 3. *)
Lemma queue_holds_a_source_twice :
  exists s, reachable 9 no_draws s /\
            queue_of s 0 = [(7%Z, 3); (9%Z, 3)] /\
            ~ NoDup (map snd (queue_of s 0)).
Proof.
  destruct double_inquire_runs as (s0 & s & H0 & Hrun & Hq).
  exists s. split; [by eapply run_trace_reachable|]. split; [done|].
  rewrite Hq. simpl. intros Hnd. apply NoDup_cons in Hnd as [Hnot _].
  apply Hnot. by constructor.
Qed.

(** C9 (as amended): in every state the system can reach, the
    pending-request queue of a node holds no entry whose src is the node's
    own id. *)
Theorem queue_never_holds_own_id (N : nat) (draws : nat -> list nat)
    (s : System) (i : nat) (e : prio) :
  reachable N draws s -> e ∈ queue_of s i -> e.2 <> i.
Proof.
  intros [Hns _]%reachable_ok. unfold queue_of.
  destruct (nodes s !! i) as [[n pc]|] eqn:En; [|by intros ?%elem_of_nil].
  destruct (Hns _ _ _ En) as (_ & _ & Hq & _).
  rewrite Forall_forall in Hq. apply Hq.
Qed.

Lemma queue_never_holds_own_id_witness :
  exists s, reachable 9 no_draws s /\
            ((7%Z, 3) ∈ queue_of s 0) /\ (7%Z, 3).2 <> 0.
Proof.
  destruct double_inquire_runs as (s0 & s & H0 & Hrun & Hq).
  assert (reachable 9 no_draws s) as Hreach
    by (by eapply run_trace_reachable).
  assert ((7%Z, 3) ∈ queue_of s 0) as Hin
    by (rewrite Hq; by constructor).
  exists s. split; [exact Hreach|]. split; [exact Hin|].
  exact (queue_never_holds_own_id 9 no_draws s 0 (7%Z, 3) Hreach Hin).
Defined.

End SystemSpec.

Module NodeExtra.
Import Codec NodeM.

Lemma prio_leb_spec (a b : prio) :
  prio_leb a b = true <->
  (a.1 < b.1)%Z \/ (a.1 = b.1 /\ a.2 <= b.2).
Proof.
  destruct a as [ta sa], b as [tb sb]. unfold prio_leb, prio_ltb. simpl.
  destruct (Z.ltb_spec tb ta), (Z.eqb_spec tb ta), (Nat.ltb_spec sb sa);
    simpl; split; intros; try done; lia.
Qed.

Lemma prio_ltb_spec (a b : prio) :
  prio_ltb a b = true <->
  (a.1 < b.1)%Z \/ (a.1 = b.1 /\ a.2 < b.2).
Proof.
  destruct a as [ta sa], b as [tb sb]. unfold prio_ltb. simpl.
  destruct (Z.ltb_spec ta tb), (Z.eqb_spec ta tb), (Nat.ltb_spec sa sb);
    simpl; split; intros; try done; lia.
Qed.

Lemma prio_leb_trans (a b c : prio) :
  prio_leb a b = true -> prio_leb b c = true -> prio_leb a c = true.
Proof. rewrite !prio_leb_spec. lia. Qed.

Lemma prio_ltb_leb (a b : prio) : prio_ltb a b = true -> prio_leb a b = true.
Proof. rewrite prio_ltb_spec, prio_leb_spec. lia. Qed.

Lemma prio_leb_refl (a : prio) : prio_leb a a = true.
Proof. rewrite prio_leb_spec. lia. Qed.

(** [put] keeps the ascending order. *)
Lemma pq_put_sorted (x : prio) (q : pqueue) :
  pq_sorted q -> pq_sorted (pq_put x q).
Proof.
  unfold pq_sorted. induction 1 as [|y q Hq IH Hy]; simpl.
  - by repeat constructor.
  - destruct (prio_ltb y x) eqn:E.
    + constructor; [done|].
      apply SystemSpec.Forall_pq_put; [by apply prio_ltb_leb|done].
    + assert (prio_leb x y = true) as Hxy by (unfold prio_leb; by rewrite E).
      constructor; [by constructor|]. constructor; [done|].
      eapply Forall_impl; [exact Hy|]. intros z Hz. simpl in Hz.
      by eapply prio_leb_trans.
Qed.

Lemma purge_sorted (s : nat) (q new_queue : pqueue) :
  pq_sorted new_queue -> pq_sorted (purge s q new_queue).
Proof.
  revert new_queue. induction q as [|[q_ts q_src] q IH]; intros nq Hn; simpl;
    [done|].
  destruct (q_src =? s); [by apply IH|]. apply IH. by apply pq_put_sorted.
Qed.

(** The purge keeps exactly the entries of the other sources. *)
Lemma purge_perm (s : nat) (q new_queue : list prio) :
  purge s q new_queue ≡ₚ
  filter (fun e : prio => e.2 <> s) q ++ new_queue.
Proof.
  revert new_queue. induction q as [|[q_ts q_src] q IH]; intros nq;
    [done|]. cbn [purge].
  destruct (Nat.eqb_spec q_src s) as [->|Hne].
  - rewrite filter_cons_False by (simpl; tauto). apply IH.
  - rewrite filter_cons_True by done. rewrite IH, NodeSpec.pq_put_perm.
    simpl. by rewrite Permutation_middle.
Qed.

Lemma pq_sorted_head (x : prio) (q : pqueue) :
  pq_sorted (x :: q) -> forall y, y ∈ x :: q -> prio_leb x y = true.
Proof.
  intros Hs y [->|Hy]%elem_of_cons; [apply prio_leb_refl|].
  apply StronglySorted_inv in Hs as [_ Hall].
  rewrite Forall_forall in Hall. by apply Hall.
Qed.

Lemma pq_sorted_tail (x : prio) (q : pqueue) : pq_sorted (x :: q) -> pq_sorted q.
Proof. by intros [? _]%StronglySorted_inv. Qed.


(** *** The next grant *)

(** [grant_next] on a sorted queue: nothing when it is empty, otherwise a
    GRANT to the least entry, which leaves the queue and becomes
    [grants_sent]. *)
Lemma grant_next_best (n : Node) :
  pq_sorted (queue n) ->
  match grant_next n with
  | None => queue n = []
  | Some (n', out) =>
      exists g rest,
        queue n = g :: rest /\
        (forall e, e ∈ queue n -> prio_leb g e = true) /\
        out = [(g.2, mkMessage GRANT (id n) (Some g.2) (lamport_ts n + 1) None)] /\
        queue n' = rest /\ grants_sent n' = Some g /\
        lamport_ts n' = (lamport_ts n + 1)%Z /\
        grants_received n' = grants_received n /\ in_CS n' = in_CS n
  end.
Proof.
  intros Hs. unfold grant_next, send_message.
  destruct (queue n) as [|[q_ts q_src] q'] eqn:Eq; simpl; [done|].
  exists (q_ts, q_src), q'. repeat split; try done.
  intros e He. by eapply pq_sorted_head.
Qed.

(** X11: [yield_handler] queues the pair (msg.ts, msg.src) of the YIELD
    message itself, not the request recorded in [grants_sent], and always
    writes exactly one GRANT: to the least entry among the queued ones and
    that pair.  That entry becomes [grants_sent] whatever was recorded
    before, which is not put in the queue; the other entries stay queued,
    in order. *)
Theorem yield_handler_grants_best (n : Node) (msg : Message) :
  pq_sorted (queue n) ->
  exists g rest,
    g :: rest ≡ₚ (ts msg, src msg) :: queue n /\
    (forall e, e ∈ (ts msg, src msg) :: queue n -> prio_leb g e = true) /\
    (yield_handler n msg).2 =
      [(g.2, mkMessage GRANT (id n) (Some g.2) (lamport_ts n + 1) None)] /\
    queue (yield_handler n msg).1 = rest /\
    grants_sent (yield_handler n msg).1 = Some g /\
    pq_sorted rest.
Proof.
  intros Hs. unfold yield_handler.
  set (n1 := set_queue n (pq_put (ts msg, src msg) (queue n))).
  set (n2 := clear_grant_if_equal n1 msg).
  assert (queue n2 = pq_put (ts msg, src msg) (queue n)) as Hq2.
  { unfold n2, clear_grant_if_equal. by repeat case_match. }
  assert (id n2 = id n /\ lamport_ts n2 = lamport_ts n) as [Hid Hclk].
  { unfold n2, clear_grant_if_equal. by repeat case_match. }
  assert (pq_sorted (queue n2)) as Hs2
    by (rewrite Hq2; by apply pq_put_sorted).
  pose proof (grant_next_best n2 Hs2) as Hg.
  destruct (grant_next n2) as [[n' out]|].
  - destruct Hg as (g & rest & Hq & Hmin & -> & Hrest & Hgs & _).
    exists g, rest. rewrite Hid, Hclk. simpl.
    pose proof (NodeSpec.pq_put_perm (ts msg, src msg) (queue n)) as Hp.
    rewrite <- Hq2, Hq in Hp. split; [exact Hp|].
    split; [|split; [done|split; [done|split; [done|]]]].
    + intros e He. apply Hmin. rewrite Hq2.
      by apply NodeSpec.elem_of_pq_put, elem_of_cons.
    + rewrite Hq in Hs2. by eapply pq_sorted_tail.
  - exfalso. rewrite Hq2 in Hg.
    pose proof (NodeSpec.pq_put_perm (ts msg, src msg) (queue n)) as Hp.
    rewrite Hg in Hp. by apply Permutation_nil_cons in Hp.
Qed.

Lemma yield_handler_grants_best_witness :
  exists g rest,
    g :: rest ≡ₚ (9%Z, 3) :: [(1%Z, 2); (7%Z, 3)] /\
    (forall e, e ∈ (9%Z, 3) :: [(1%Z, 2); (7%Z, 3)] -> prio_leb g e = true) /\
    (yield_handler
       (mkNode 0 9%Z [1; 2; 3; 6] [(1%Z, 2); (7%Z, 3)] (Some (1%Z, 1)) ∅
               false false false 0)
       (mkMessage YIELD 3 (Some 0) 9%Z None)).2 =
      [(g.2, mkMessage GRANT 0 (Some g.2) (9 + 1) None)] /\
    queue (yield_handler
       (mkNode 0 9%Z [1; 2; 3; 6] [(1%Z, 2); (7%Z, 3)] (Some (1%Z, 1)) ∅
               false false false 0)
       (mkMessage YIELD 3 (Some 0) 9%Z None)).1 = rest /\
    grants_sent (yield_handler
       (mkNode 0 9%Z [1; 2; 3; 6] [(1%Z, 2); (7%Z, 3)] (Some (1%Z, 1)) ∅
               false false false 0)
       (mkMessage YIELD 3 (Some 0) 9%Z None)).1 = Some g /\
    pq_sorted rest.
Proof.
  apply (yield_handler_grants_best
           (mkNode 0 9%Z [1; 2; 3; 6] [(1%Z, 2); (7%Z, 3)] (Some (1%Z, 1)) ∅
                   false false false 0)
           (mkMessage YIELD 3 (Some 0) 9%Z None)).
  unfold pq_sorted. simpl. repeat constructor.
Defined.

(** X12: [release_handler]: the queued requests of the releasing node are
    dropped, all others are kept; the best of them gets the GRANT and
    becomes [grants_sent]; with none left, nothing is written and
    [grants_sent] is cleared. *)
Theorem release_handler_effect (n : Node) (msg : Message) :
  pq_sorted (queue n) ->
  let kept := filter (fun e : prio => e.2 <> src msg) (queue n : list prio) in
  let r := release_handler n msg in
  (kept = [] ->
     r.2 = [] /\ grants_sent r.1 = None /\ queue r.1 = [] /\
     lamport_ts r.1 = lamport_ts n) /\
  (kept <> [] ->
     exists g rest,
       g :: rest ≡ₚ kept /\
       (forall e, e ∈ kept -> prio_leb g e = true) /\
       r.2 = [(g.2, mkMessage GRANT (id n) (Some g.2) (lamport_ts n + 1) None)] /\
       queue r.1 = rest /\ grants_sent r.1 = Some g /\ pq_sorted rest).
Proof.
  intros Hs kept r. unfold r, release_handler.
  set (n1 := clear_grant_if_equal n msg).
  assert (queue n1 = queue n /\ id n1 = id n /\ lamport_ts n1 = lamport_ts n)
    as (Hq1 & Hid & Hclk).
  { unfold n1, clear_grant_if_equal. by repeat case_match. }
  set (n2 := set_queue n1 (purge (src msg) (queue n1) [])).
  assert (queue n2 ≡ₚ kept) as Hperm.
  { unfold n2. simpl. rewrite Hq1, purge_perm. by rewrite app_nil_r. }
  assert (pq_sorted (queue n2)) as Hs2.
  { unfold n2. simpl. apply purge_sorted. constructor. }
  pose proof (grant_next_best n2 Hs2) as Hg.
  destruct (grant_next n2) as [[n' out]|]; simpl.
  - destruct Hg as (g & rest & Hq & Hmin & -> & Hrest & Hgs & _).
    split.
    + intros Hk. rewrite Hk, Hq in Hperm.
      by apply Permutation_nil_r in Hperm.
    + intros _. exists g, rest. simpl in *. rewrite Hid, Hclk.
      rewrite Hq in Hperm. split; [exact Hperm|].
      split; [|split; [done|split; [done|split; [done|]]]].
      * intros e He. apply Hmin. rewrite Hq. by rewrite Hperm.
      * rewrite Hq in Hs2. by eapply pq_sorted_tail.
  - split.
    + intros _. simpl in *. by rewrite Hg.
    + intros Hk. exfalso. rewrite Hg in Hperm.
      apply Permutation_nil_l in Hperm. by rewrite Hperm in Hk.
Qed.


Lemma release_handler_effect_witness :
  let n := mkNode 0 11%Z [1; 2; 3; 6] [(7%Z, 3); (9%Z, 3); (12%Z, 1)]
                  (Some (1%Z, 2)) ∅ false false false 0 in
  let msg := mkMessage RELEASE 3 (Some 0) 20%Z None in
  let kept := filter (fun e : prio => e.2 <> src msg) (queue n : list prio) in
  let r := release_handler n msg in
  (kept = [] ->
     r.2 = [] /\ grants_sent r.1 = None /\ queue r.1 = [] /\
     lamport_ts r.1 = lamport_ts n) /\
  (kept <> [] ->
     exists g rest,
       g :: rest ≡ₚ kept /\
       (forall e, e ∈ kept -> prio_leb g e = true) /\
       r.2 = [(g.2, mkMessage GRANT (id n) (Some g.2) (lamport_ts n + 1) None)] /\
       queue r.1 = rest /\ grants_sent r.1 = Some g /\ pq_sorted rest).
Proof.
  intros n msg. apply (release_handler_effect n msg).
  unfold pq_sorted. simpl. repeat constructor.
Defined.

Lemma grant_next_sorted (n n' : Node) (out : outbox) :
  pq_sorted (queue n) -> grant_next n = Some (n', out) -> pq_sorted (queue n').
Proof.
  intros Hs. unfold grant_next, send_message.
  destruct (queue n) as [|[q_ts q_src] q'] eqn:Eq; simpl; [done|].
  intros [= <- <-]. simpl. by eapply pq_sorted_tail.
Qed.

Lemma clear_grant_queue (n : Node) (msg : Message) :
  queue (clear_grant_if_equal n msg) = queue n.
Proof. unfold clear_grant_if_equal. by repeat case_match. Qed.

Lemma yield_handler_sorted (n : Node) (msg : Message) :
  pq_sorted (queue n) -> pq_sorted (queue (yield_handler n msg).1).
Proof.
  intros Hs. unfold yield_handler.
  assert (pq_sorted (queue (clear_grant_if_equal
            (set_queue n (pq_put (ts msg, src msg) (queue n))) msg))) as Hs2
    by (rewrite clear_grant_queue; by apply pq_put_sorted).
  destruct (grant_next _) as [[n' out]|] eqn:E; simpl; [|done].
  by eapply grant_next_sorted.
Qed.

Lemma release_handler_sorted (n : Node) (msg : Message) :
  pq_sorted (queue n) -> pq_sorted (queue (release_handler n msg).1).
Proof.
  intros Hs. unfold release_handler.
  set (n2 := set_queue _ _).
  assert (pq_sorted (queue n2)) as Hs2
    by (unfold n2; simpl; apply purge_sorted; constructor).
  destruct (grant_next n2) as [[n' out]|] eqn:E; simpl; [|done].
  by eapply grant_next_sorted.
Qed.

(** *** GRANTs and [grants_sent] *)

Lemma request_handler_grant (n : Node) (msg : Message) :
  let r := request_handler n msg in
  (forall d m, (d, m) ∈ r.2 -> msg_type m = GRANT ->
               exists t, grants_sent r.1 = Some (t, d)) /\
  (forall g, grants_sent r.1 = Some g -> grants_sent n <> Some g ->
             exists m, (g.2, m) ∈ r.2 /\ msg_type m = GRANT).
Proof.
  unfold request_handler, send_message.
  destruct (grants_sent n) as [[hp_ts hp_src]|] eqn:Eg;
    [destruct (prio_ltb _ _)|]; simpl; rewrite ?Eg; split.
  - intros d m [= -> ->]%list_elem_of_singleton. discriminate.
  - intros g -> Hne. done.
  - intros d m [= -> ->]%list_elem_of_singleton. discriminate.
  - intros g -> Hne. done.
  - intros d m [= -> ->]%list_elem_of_singleton _. eauto.
  - intros g [= <-] _. eexists. split; [by apply list_elem_of_singleton|done].
Qed.

Lemma grant_next_grant (n n' : Node) (out : outbox) :
  grant_next n = Some (n', out) ->
  exists g m, out = [(g.2, m)] /\ msg_type m = GRANT /\
              grants_sent n' = Some g.
Proof.
  unfold grant_next, send_message.
  destruct (queue n) as [|[q_ts q_src] q']; simpl; [done|].
  intros [= <- <-]. exists (q_ts, q_src). eauto.
Qed.

Lemma grant_next_None (n : Node) : grant_next n = None -> queue n = [].
Proof.
  unfold grant_next, send_message.
  by destruct (queue n) as [|[q_ts q_src] q'].
Qed.

Lemma clear_grant_sent (n : Node) (msg : Message) (g : prio) :
  grants_sent (clear_grant_if_equal n msg) = Some g -> grants_sent n = Some g.
Proof.
  unfold clear_grant_if_equal.
  destruct (grants_sent n) as [g'|] eqn:E; [|by rewrite E].
  destruct (prio_eqb _ g'); [done|by rewrite E].
Qed.

(** X10: every GRANT a handler writes is entered in [grants_sent], and
    [grants_sent] never comes to name a node without a GRANT written to
    it: [grants_sent] is the addressee of the last GRANT. *)
Theorem grant_is_recorded (n : Node) (msg : Message) :
  let p := process_message n msg in
  (forall d m, (d, m) ∈ p_sent p -> msg_type m = GRANT ->
               exists t, grants_sent (p_node p) = Some (t, d)) /\
  (forall g, grants_sent (p_node p) = Some g -> grants_sent n <> Some g ->
             exists m, (g.2, m) ∈ p_sent p /\ msg_type m = GRANT).
Proof.
  unfold process_message, dispatch.
  set (n1 := receive_tick n msg).
  change (grants_sent n) with (grants_sent n1).
  destruct (String.eqb (msg_type msg) REQUEST).
  { pose proof (request_handler_grant n1 msg) as H.
    by destruct (request_handler n1 msg). }
  destruct (String.eqb (msg_type msg) YIELD).
  { unfold yield_handler.
    destruct (grant_next _) as [[n' out]|] eqn:E; simpl.
    - apply grant_next_grant in E as (g & m & -> & Hm & Hg). split.
      + intros d m' [= -> ->]%list_elem_of_singleton _.
        destruct g. eauto.
      + intros g' Hg' _. rewrite Hg in Hg'. injection Hg' as <-.
        exists m. split; [by apply list_elem_of_singleton|done].
    - split; [by intros d m ?%elem_of_nil|].
      intros g Hg Hne. apply clear_grant_sent in Hg. done. }
  destruct (String.eqb (msg_type msg) RELEASE).
  { unfold release_handler.
    destruct (grant_next _) as [[n' out]|] eqn:E; simpl.
    - apply grant_next_grant in E as (g & m & -> & Hm & Hg). split.
      + intros d m' [= -> ->]%list_elem_of_singleton _.
        destruct g. eauto.
      + intros g' Hg' _. rewrite Hg in Hg'. injection Hg' as <-.
        exists m. split; [by apply list_elem_of_singleton|done].
    - split; [by intros d m ?%elem_of_nil|]. done. }
  destruct (String.eqb (msg_type msg) INQUIRE).
  { unfold inquire_handler, send_message.
    destruct (negb (in_CS n1)); simpl.
    - split.
      + intros d m [= -> ->]%list_elem_of_singleton. discriminate.
      + intros g Hg Hne. by destruct (decide _).
    - split; [by intros d m ?%elem_of_nil|done]. }
  destruct (String.eqb (msg_type msg) GRANT).
  { simpl. split; [by intros d m ?%elem_of_nil|done]. }
  destruct (String.eqb (msg_type msg) FAILED).
  { simpl. split; [by intros d m ?%elem_of_nil|done]. }
  simpl. split; [by intros d m ?%elem_of_nil|done].
Qed.

(** *** The clock across a receive *)

(** X13: after a message is processed the node's clock is above both its old
    value and the timestamp received, and so is the timestamp of every
    reply written. *)
Theorem receive_advances_clock (n : Node) (msg : Message) :
  let p := process_message n msg in
  (lamport_ts n < lamport_ts (p_node p))%Z /\
  (ts msg < lamport_ts (p_node p))%Z /\
  Forall (fun dm => (lamport_ts n < ts dm.2)%Z /\ (ts msg < ts dm.2)%Z /\
                    (ts dm.2 <= lamport_ts (p_node p))%Z)
         (p_sent p).
Proof.
  intros p. unfold p, process_message.
  pose proof (NodeSpec.dispatch_clock (receive_tick n msg) msg) as [Hc Ht].
  simpl in Hc, Ht.
  split; [lia|]. split; [lia|].
  apply Forall_forall. intros dm Hin.
  rewrite Forall_forall in Ht. rewrite (Ht dm Hin), Hc.
  destruct (p_sent (dispatch (receive_tick n msg) msg));
    [by apply elem_of_nil in Hin|].
  simpl length. lia.
Qed.


(** *** What the handlers leave alone *)

Lemma clear_grant_frame (n : Node) (msg : Message) :
  let n' := clear_grant_if_equal n msg in
  id n' = id n /\ colleagues n' = colleagues n /\ in_CS n' = in_CS n /\
  wakeupcounter n' = wakeupcounter n /\
  grants_received n' = grants_received n /\ queue n' = queue n.
Proof. unfold clear_grant_if_equal. by repeat case_match. Qed.

Lemma grant_next_frame (n n' : Node) (out : outbox) :
  grant_next n = Some (n', out) ->
  id n' = id n /\ colleagues n' = colleagues n /\ in_CS n' = in_CS n /\
  wakeupcounter n' = wakeupcounter n /\
  grants_received n' = grants_received n.
Proof.
  unfold grant_next, send_message.
  destruct (queue n) as [|[q_ts q_src] q']; simpl; [done|].
  by intros [= <- <-].
Qed.

(** No handler touches [id], [colleagues], [in_CS] or the iteration
    count. *)
Lemma process_message_frame (n : Node) (msg : Message) :
  let n' := p_node (process_message n msg) in
  id n' = id n /\ colleagues n' = colleagues n /\ in_CS n' = in_CS n /\
  wakeupcounter n' = wakeupcounter n.
Proof.
  unfold process_message, dispatch.
  set (n1 := receive_tick n msg).
  change (id n) with (id n1). change (colleagues n) with (colleagues n1).
  change (in_CS n) with (in_CS n1).
  change (wakeupcounter n) with (wakeupcounter n1).
  destruct (String.eqb (msg_type msg) REQUEST).
  { unfold request_handler, send_message. repeat case_match; by simplify_eq. }
  destruct (String.eqb (msg_type msg) YIELD).
  { unfold yield_handler.
    pose proof (clear_grant_frame
      (set_queue n1 (pq_put (ts msg, src msg) (queue n1))) msg)
      as (? & ? & ? & ? & _).
    destruct (grant_next _) as [[n' out]|] eqn:E; simpl; [|done].
    apply grant_next_frame in E as (? & ? & ? & ? & _).
    simpl in *. repeat split; congruence. }
  destruct (String.eqb (msg_type msg) RELEASE).
  { unfold release_handler.
    pose proof (clear_grant_frame n1 msg) as (? & ? & ? & ? & _).
    destruct (grant_next _) as [[n' out]|] eqn:E; simpl; [|done].
    apply grant_next_frame in E as (? & ? & ? & ? & _).
    simpl in *. repeat split; congruence. }
  destruct (String.eqb (msg_type msg) INQUIRE).
  { unfold inquire_handler, send_message. repeat case_match; by simplify_eq. }
  destruct (String.eqb (msg_type msg) GRANT); [done|].
  destruct (String.eqb (msg_type msg) FAILED); done.
Qed.

(** *** Node-local invariants *)

Lemma process_message_idle (n : Node) (msg : Message) :
  idle_grant_means_empty_queue n ->
  idle_grant_means_empty_queue (p_node (process_message n msg)).
Proof.
  intros Hn. unfold process_message, dispatch, idle_grant_means_empty_queue.
  set (n1 := receive_tick n msg).
  assert (grants_sent n1 = None -> queue n1 = []) as Hn1 by exact Hn.
  destruct (String.eqb (msg_type msg) REQUEST).
  { unfold request_handler, send_message.
    repeat case_match; simplify_eq; simpl; intros; subst n1; simpl in *;
      congruence. }
  destruct (String.eqb (msg_type msg) YIELD).
  { unfold yield_handler.
    destruct (grant_next _) as [[n' out]|] eqn:E; simpl.
    - apply grant_next_grant in E as (g & m & _ & _ & Hg). by rewrite Hg.
    - intros _. by apply grant_next_None in E. }
  destruct (String.eqb (msg_type msg) RELEASE).
  { unfold release_handler.
    destruct (grant_next _) as [[n' out]|] eqn:E; simpl.
    - apply grant_next_grant in E as (g & m & _ & _ & Hg). by rewrite Hg.
    - intros _. by apply grant_next_None in E. }
  destruct (String.eqb (msg_type msg) INQUIRE).
  { unfold inquire_handler, send_message.
    repeat case_match; simplify_eq; simpl; done. }
  destruct (String.eqb (msg_type msg) GRANT); [done|].
  destruct (String.eqb (msg_type msg) FAILED); done.
Qed.

Lemma yield_handler_received (n : Node) (msg : Message) :
  grants_received (yield_handler n msg).1 = grants_received n.
Proof.
  unfold yield_handler.
  pose proof (clear_grant_frame
    (set_queue n (pq_put (ts msg, src msg) (queue n))) msg)
    as (_ & _ & _ & _ & Hgr & _).
  destruct (grant_next _) as [[n' out]|] eqn:E; [|exact Hgr].
  apply grant_next_frame in E as (_ & _ & _ & _ & Hgr').
  simpl. by rewrite Hgr', Hgr.
Qed.

Lemma release_handler_received (n : Node) (msg : Message) :
  grants_received (release_handler n msg).1 = grants_received n.
Proof.
  unfold release_handler.
  pose proof (clear_grant_frame n msg) as (_ & _ & _ & _ & Hgr & _).
  destruct (grant_next _) as [[n' out]|] eqn:E; [|exact Hgr].
  apply grant_next_frame in E as (_ & _ & _ & _ & Hgr').
  simpl. by rewrite Hgr'.
Qed.

Lemma process_message_cs (n : Node) (msg : Message) :
  cs_holds_grants n -> cs_holds_grants (p_node (process_message n msg)).
Proof.
  intros Hn. unfold cs_holds_grants.
  pose proof (process_message_frame n msg) as (_ & Hcol & Hcs & _).
  simpl in Hcol, Hcs. rewrite Hcol, Hcs. intros Hin. specialize (Hn Hin).
  etrans; [exact Hn|]. clear Hn.
  unfold process_message, dispatch.
  set (n1 := receive_tick n msg).
  change (grants_received n) with (grants_received n1).
  assert (in_CS n1 = true) as Hin1 by exact Hin.
  destruct (String.eqb (msg_type msg) REQUEST).
  { unfold request_handler, send_message. repeat case_match; by simplify_eq. }
  destruct (String.eqb (msg_type msg) YIELD).
  { pose proof (yield_handler_received n1 msg) as Hgr.
    destruct (yield_handler n1 msg). simpl in *. by rewrite Hgr. }
  destruct (String.eqb (msg_type msg) RELEASE).
  { pose proof (release_handler_received n1 msg) as Hgr.
    destruct (release_handler n1 msg). simpl in *. by rewrite Hgr. }
  destruct (String.eqb (msg_type msg) INQUIRE).
  { unfold inquire_handler. rewrite Hin1. done. }
  destruct (String.eqb (msg_type msg) GRANT).
  { simpl. apply subseteq_size. set_solver. }
  destruct (String.eqb (msg_type msg) FAILED); done.
Qed.

Lemma process_message_sorted (n : Node) (msg : Message) :
  pq_sorted (queue n) -> pq_sorted (queue (p_node (process_message n msg))).
Proof.
  intros Hn. unfold process_message, dispatch.
  set (n1 := receive_tick n msg).
  assert (pq_sorted (queue n1)) as Hn1 by exact Hn.
  destruct (String.eqb (msg_type msg) REQUEST).
  { unfold request_handler, send_message.
    repeat case_match; simplify_eq; simpl; try done; by apply pq_put_sorted. }
  destruct (String.eqb (msg_type msg) YIELD).
  { pose proof (yield_handler_sorted n1 msg Hn1) as Hs.
    by destruct (yield_handler n1 msg). }
  destruct (String.eqb (msg_type msg) RELEASE).
  { pose proof (release_handler_sorted n1 msg Hn1) as Hs.
    by destruct (release_handler n1 msg). }
  destruct (String.eqb (msg_type msg) INQUIRE).
  { unfold inquire_handler, send_message. repeat case_match; by simplify_eq. }
  destruct (String.eqb (msg_type msg) GRANT); [done|].
  destruct (String.eqb (msg_type msg) FAILED); done.
Qed.

(** A handler writes at most one message. *)
Lemma process_message_sends_one (n : Node) (msg : Message) :
  length (p_sent (process_message n msg)) <= 1.
Proof.
  unfold process_message, dispatch.
  set (n1 := receive_tick n msg).
  destruct (String.eqb (msg_type msg) REQUEST).
  { destruct (NodeSpec.request_handler_clock n1 msg) as (_ & d & m & Ho & _).
    destruct (request_handler n1 msg) as [n' out]. simpl in *. by subst. }
  destruct (String.eqb (msg_type msg) YIELD).
  { unfold yield_handler.
    destruct (grant_next _) as [[n' out]|] eqn:E; simpl; [|lia].
    by apply grant_next_grant in E as (g & m & -> & _). }
  destruct (String.eqb (msg_type msg) RELEASE).
  { unfold release_handler.
    destruct (grant_next _) as [[n' out]|] eqn:E; simpl; [|lia].
    by apply grant_next_grant in E as (g & m & -> & _). }
  destruct (String.eqb (msg_type msg) INQUIRE).
  { unfold inquire_handler, send_message.
    repeat case_match; simplify_eq; simpl; lia. }
  destruct (String.eqb (msg_type msg) GRANT); [simpl; lia|].
  destruct (String.eqb (msg_type msg) FAILED); simpl; lia.
Qed.

End NodeExtra.

Module FlagsExtra.
Import NodeM.

Lemma dispatch_flags (n : Node) (bf bY : bool) (m : Message) :
  let n' := set_yielded (set_failed n bf) bY in
  p_sent (dispatch n' m) = p_sent (dispatch n m) /\
  p_notified (dispatch n' m) = p_notified (dispatch n m) /\
  p_raised (dispatch n' m) = p_raised (dispatch n m) /\
  clear_flags (p_node (dispatch n' m)) = clear_flags (p_node (dispatch n m)).
Proof.
  destruct n as [i c cs q g gr y f cs' w]. unfold dispatch. simpl.
  destruct (String.eqb (msg_type m) REQUEST).
  { unfold request_handler, send_message. simpl.
    destruct g as [[hp_ts hp_src]|]; [destruct (prio_ltb _ _)|]; done. }
  destruct (String.eqb (msg_type m) YIELD).
  { unfold yield_handler, clear_grant_if_equal, grant_next, send_message.
    simpl. destruct g as [g|]; [destruct (prio_eqb _ g)|]; simpl;
      destruct (pq_put _ q) as [|[q_ts q_src] q']; done. }
  destruct (String.eqb (msg_type m) RELEASE).
  { unfold release_handler, clear_grant_if_equal, grant_next, send_message.
    simpl. destruct g as [g|]; [destruct (prio_eqb _ g)|]; simpl;
      destruct (purge _ q []) as [|[q_ts q_src] q']; done. }
  destruct (String.eqb (msg_type m) INQUIRE).
  { unfold inquire_handler, send_message. simpl.
    destruct cs'; simpl; [done|]. by destruct (decide (src m ∈ gr)). }
  destruct (String.eqb (msg_type m) GRANT); [done|].
  destruct (String.eqb (msg_type m) FAILED); done.
Qed.

(** X14: the flags [yielded] and [failed] are written but never read: whatever
    their values, a handler writes the same messages, notifies and raises
    alike and leaves the same node, flags apart; and the request loop takes
    the same steps. *)
Theorem flags_are_never_read (n : Node) (bf bY : bool) (m : Message) :
  let n' := set_yielded (set_failed n bf) bY in
  p_sent (process_message n' m) = p_sent (process_message n m) /\
  p_notified (process_message n' m) = p_notified (process_message n m) /\
  p_raised (process_message n' m) = p_raised (process_message n m) /\
  clear_flags (p_node (process_message n' m))
    = clear_flags (p_node (process_message n m)) /\
  (run_request n').2 = (run_request n).2 /\
  clear_flags <$> run_enter n' = clear_flags <$> run_enter n /\
  (run_release n').2 = (run_release n).2.
Proof.
  intros n'. unfold process_message.
  pose proof (dispatch_flags (receive_tick n m) bf bY m) as (H1 & H2 & H3 & H4).
  split_and!; try done.
  unfold n', run_enter, must_wait. simpl. by destruct (_ <? _).
Qed.

End FlagsExtra.

Module CodecExtra.
Import Codec.

Lemma startswith_sep_take (a : ascii) (s : pystr) (k : nat) :
  startswith sep (a :: s) = false ->
  startswith sep (a :: take (S k) s) = false.
Proof.
  unfold sep. destruct s as [|b s]; cbn [startswith take]; [|done].
  destruct (Ascii.eqb close_brace a); done.
Qed.

(** The part of the string up to the first "}{" holds no "}{". *)
Lemma str_find_take_first (s : pystr) :
  forall k, str_find sep s = Some k -> str_find sep (take (k + 1) s) = None.
Proof.
  induction s as [|a s IH]; intros k; [discriminate|].
  rewrite NodeSpec.str_find_cons.
  destruct (startswith sep (a :: s)) eqn:E.
  - intros [= <-]. cbn [take Nat.add].
    rewrite NodeSpec.str_find_cons. unfold sep at 1. cbn [startswith].
    destruct (Ascii.eqb close_brace a); reflexivity.
  - destruct (str_find sep s) as [k'|] eqn:Ef; [|discriminate].
    intros [= <-]. cbn [take Nat.add].
    rewrite NodeSpec.str_find_cons.
    replace (k' + 1) with (S k') by lia.
    rewrite (startswith_sep_take _ _ _ E).
    replace (S k') with (k' + 1) by lia.
    rewrite (IH k' eq_refl). reflexivity.
Qed.

Lemma parse_loop_pieces (fuel : nat) :
  forall (str : pystr) (msgs out : list pystr),
    parse_loop fuel str msgs = Returned out ->
    exists pieces, out = msgs ++ pieces /\ pieces <> [] /\
                   concat pieces = str /\ Forall is_piece pieces.
Proof.
  induction fuel as [|fuel IH]; intros str msgs out; [discriminate|].
  cbn [parse_loop]. destruct (str_find sep str) as [k|] eqn:Ef.
  - pose proof (str_find_take_first _ _ Ef) as Hnone.
    apply CodecSpec.str_find_sep_Some in Ef as [Hk Hk1].
    unfold str_last. rewrite (CodecSpec.last_take_lookup _ _ _ Hk).
    rewrite Ascii.eqb_refl. intros Hrec.
    apply IH in Hrec as (pieces & -> & Hne & Hcat & Hall).
    exists (take (k + 1) str :: pieces). split; [by rewrite <- app_assoc|].
    split; [done|]. split.
    + simpl. rewrite Hcat. apply take_drop.
    + constructor; [|done]. split; [|done].
      by apply CodecSpec.last_take_lookup.
  - unfold str_last. destruct (last str) as [c|] eqn:El; [|discriminate].
    destruct (Ascii.eqb_spec c close_brace) as [->|]; [|discriminate].
    intros [= <-]. exists [str]. split; [done|]. split; [done|].
    split; [simpl; by rewrite app_nil_r|]. by repeat constructor.
Qed.

(** X1: whatever [parse] returns is a split of its input: the pieces, put
    together again, are the input; there is at least one; each ends in '}'
    and holds no "}{". *)
Theorem parse_returns_split (str : pystr) (msgs : list pystr) :
  parse str = Returned msgs ->
  msgs <> [] /\ concat msgs = str /\ Forall is_piece msgs.
Proof.
  unfold parse. intros (pieces & -> & Hne & Hcat & Hall)%parse_loop_pieces.
  done.
Qed.

Lemma parse_returns_split_witness :
  [lit "{a}"; lit "{b}"] <> [] /\
  concat [lit "{a}"; lit "{b}"] = lit "{a}{b}" /\
  Forall is_piece [lit "{a}"; lit "{b}"].
Proof.
  apply (parse_returns_split (lit "{a}{b}") [lit "{a}"; lit "{b}"]).
  reflexivity.
Defined.

Lemma parse_loop_good_trailer (fuel : nat) :
  forall (str : pystr) (msgs : list pystr),
    length str < fuel -> last str = Some close_brace ->
    exists out, parse_loop fuel str msgs = Returned out.
Proof.
  induction fuel as [|fuel IH]; intros str msgs Hlen Hlast; [lia|].
  cbn [parse_loop]. destruct (str_find sep str) as [k|] eqn:Ef.
  - apply CodecSpec.str_find_sep_Some in Ef as [Hk Hk1].
    unfold str_last. rewrite (CodecSpec.last_take_lookup _ _ _ Hk).
    rewrite Ascii.eqb_refl.
    apply lookup_lt_Some in Hk1.
    apply IH; [rewrite length_drop; lia|].
    rewrite CodecSpec.last_drop_lt by lia. done.
  - unfold str_last. rewrite Hlast, Ascii.eqb_refl. eauto.
Qed.

(** X2: [parse] returns on exactly the strings whose last character is '}';
    it looks at nothing else, so a stream that does not open with '{' is
    accepted as well. *)
Theorem parse_returns_iff (str : pystr) :
  (exists msgs, parse str = Returned msgs) <-> last str = Some close_brace.
Proof.
  split.
  - intros [msgs Hp]. destruct (last str) as [c|] eqn:El.
    + destruct (decide (c = close_brace)) as [->|Hc]; [done|].
      unfold parse in Hp.
      rewrite (CodecSpec.parse_loop_bad_trailer _ _ _ c) in Hp;
        [discriminate|lia|done|done].
    + apply last_None in El. subst str. discriminate.
  - intros Hlast. apply parse_loop_good_trailer; [lia|done].
Qed.


Lemma parse_to_json_witness :
  parse (concat (map NodeM.to_json
           [NodeM.mkMessage NodeM.REQUEST 0 (Some 1) 1%Z None;
            NodeM.mkMessage NodeM.GRANT 2 (Some 1) 3%Z None])) =
  Returned (map NodeM.to_json
           [NodeM.mkMessage NodeM.REQUEST 0 (Some 1) 1%Z None;
            NodeM.mkMessage NodeM.GRANT 2 (Some 1) 3%Z None]).
Proof.
  apply (NodeSpec.parse_to_json
           [NodeM.mkMessage NodeM.REQUEST 0 (Some 1) 1%Z None;
            NodeM.mkMessage NodeM.GRANT 2 (Some 1) 3%Z None]).
  - discriminate.
  - by repeat constructor.
Defined.

End CodecExtra.

Module QuorumExtra.
Import Quorum.

Section LoopSpec.
Variables N m : nat.

Lemma row_loop_seq_spec row a len c x :
  x ∈ row_loop N m row (seq a len) c <->
  x ∈ c \/ exists j, a <= j < a + len /\ x = row * m + j /\ x < N.
Proof.
  revert a c. induction len as [|len IH]; intros a c; simpl.
  - split; [auto|]. intros [?|(j & ? & _)]; [done|lia].
  - destruct (Nat.leb_spec N (row * m + a)).
    + split; [auto|]. intros [?|(j & ? & -> & ?)]; [done|lia].
    + rewrite IH. split.
      * intros [[?| ->%elem_of_singleton]%elem_of_union|(j & ? & ? & ?)].
        -- by left.
        -- right. exists a. lia.
        -- right. exists j. lia.
      * intros [?|(j & ? & -> & ?)]; [left; set_solver|].
        destruct (decide (j = a)) as [->|]; [left; set_solver|].
        right. exists j. lia.
Qed.

Lemma col_loop_spec col rows c x :
  x ∈ col_loop N m col rows c <->
  x ∈ c \/ exists k, k ∈ rows /\ x = k * m + col /\ x < N.
Proof.
  revert c. induction rows as [|k rows IH]; intros c; simpl.
  - split; [auto|]. intros [?|(k & ?%elem_of_nil & _)]; done.
  - destruct (Nat.leb_spec N (k * m + col)); rewrite IH.
    + split.
      * intros [?|(k' & ? & ? & ?)]; [by left|].
        right. exists k'. split; [by right|done].
      * intros [?|(k' & [->|?]%elem_of_cons & -> & ?)]; [by left|lia|].
        right. by exists k'.
    + split.
      * intros [[?| ->%elem_of_singleton]%elem_of_union|(k' & ? & ? & ?)].
        -- by left.
        -- right. exists k. split; [by left|done].
        -- right. exists k'. split; [by right|done].
      * intros [?|(k' & [->|?]%elem_of_cons & -> & ?)].
        -- left. set_solver.
        -- left. set_solver.
        -- right. by exists k'.
Qed.

End LoopSpec.

Lemma div_mod_cell (m a b : nat) :
  b < m -> (a * m + b) / m = a /\ (a * m + b) mod m = b.
Proof.
  intros Hb. split.
  - symmetry. apply (Nat.div_unique _ _ _ b); lia.
  - symmetry. apply (Nat.mod_unique _ _ a); lia.
Qed.

Lemma grid_set_mem (N id x : nat) :
  1 <= N ->
  x ∈ grid_set N id <->
  x < N /\ (x / ceil_sqrt N = id / ceil_sqrt N \/
            x mod ceil_sqrt N = id mod ceil_sqrt N).
Proof.
  intros HN. destruct (QuorumSpec.ceil_sqrt_bounds N HN) as (Hm & _ & Hhi).
  unfold grid_set. set (m := ceil_sqrt N) in *.
  rewrite col_loop_spec, row_loop_seq_spec.
  pose proof (Nat.mod_upper_bound id m ltac:(lia)) as Hcol.
  split.
  - intros [[?%elem_of_empty|(j & Hj & -> & Hx)]|(k & Hk & -> & Hx)]; [done| |].
    + split; [done|]. left. by apply div_mod_cell; lia.
    + split; [done|]. right. by apply div_mod_cell.
  - intros [Hx [Hrow|Hc]].
    + left. right. exists (x mod m).
      pose proof (Nat.mod_upper_bound x m ltac:(lia)).
      pose proof (Nat.div_mod_eq x m). split; [lia|]. split; [|done].
      rewrite <- Hrow. lia.
    + right. exists (x / m). split.
      * apply elem_of_seq. split; [lia|]. simpl.
        apply Nat.Div0.div_lt_upper_bound. lia.
      * split; [|done]. pose proof (Nat.div_mod_eq x m). rewrite <- Hc. lia.
Qed.

(** X4: the two loops collect exactly the ids of [0, N) that share the row
    or the column of [id] in the grid of width ceil(sqrt N). *)
Theorem grid_set_spec (N id x : nat) :
  1 <= N ->
  x ∈ grid_set N id <->
  x < N /\ (x / ceil_sqrt N = id / ceil_sqrt N \/
            x mod ceil_sqrt N = id mod ceil_sqrt N).
Proof. apply grid_set_mem. Qed.

Lemma grid_set_spec_witness :
  7 ∈ grid_set 9 4 <->
  7 < 9 /\ (7 / ceil_sqrt 9 = 4 / ceil_sqrt 9 \/
            7 mod ceil_sqrt 9 = 4 mod ceil_sqrt 9).
Proof. apply (grid_set_spec 9 4 7). lia. Defined.

Lemma grid_sets_meet (N i j : nat) :
  1 <= N -> i < N -> j < N ->
  exists k, k ∈ grid_set N i /\ k ∈ grid_set N j.
Proof.
  intros HN Hi Hj.
  destruct (QuorumSpec.ceil_sqrt_bounds N HN) as (Hm & _ & Hhi).
  set (m := ceil_sqrt N) in *.
  pose proof (Nat.mod_upper_bound i m ltac:(lia)) as Hci.
  pose proof (Nat.mod_upper_bound j m ltac:(lia)) as Hcj.
  pose proof (Nat.div_mod_eq i m) as Ei.
  pose proof (Nat.div_mod_eq j m) as Ej.
  destruct (Nat.lt_trichotomy (i / m) (j / m)) as [Hlt|[Heq|Hgt]].
  - exists (i / m * m + j mod m).
    destruct (div_mod_cell m (i / m) (j mod m) Hcj) as [Hd Hmo].
    assert (i / m * m + j mod m < N) by nia.
    rewrite !grid_set_mem by done. fold m. rewrite Hd, Hmo. auto.
  - exists j. rewrite !grid_set_mem by done. fold m. auto.
  - exists (j / m * m + i mod m).
    destruct (div_mod_cell m (j / m) (i mod m) Hci) as [Hd Hmo].
    assert (j / m * m + i mod m < N) by nia.
    rewrite !grid_set_mem by done. fold m. rewrite Hd, Hmo. auto.
Qed.

(** X5: any two quorums meet, whatever N and whatever was drawn for the
    padding: some id belongs to node i or its colleagues and to node j or
    its colleagues. *)
Theorem quorums_intersect (N i j : nat) (di dj ci cj : list nat) :
  1 <= N -> i < N -> j < N ->
  form_colleagues N i di = Some ci -> form_colleagues N j dj = Some cj ->
  exists k, (k = i \/ k ∈ ci) /\ (k = j \/ k ∈ cj).
Proof.
  intros HN Hi Hj Hci Hcj.
  destruct (grid_sets_meet N i j HN Hi Hj) as (k & Hki & Hkj).
  assert (forall a da ca, form_colleagues N a da = Some ca ->
            k ∈ grid_set N a -> k = a \/ k ∈ ca) as Hin.
  { intros a da ca. unfold form_colleagues, padded_set.
    destruct (pad_loop _ da (grid_set N a)) as [c|] eqn:E; [|done]. simpl.
    intros [= <-] Hk.
    apply QuorumSpec.pad_loop_content in E as [Hsub _].
    destruct (decide (k = a)); [by left|right].
    apply elem_of_elements. set_solver. }
  exists k. split; eauto.
Qed.

Lemma quorums_intersect_witness :
  exists ci cj k,
    form_colleagues 7 6 [1; 5] = Some ci /\
    form_colleagues 7 2 [2; 6] = Some cj /\
    (k = 6 \/ k ∈ ci) /\ (k = 2 \/ k ∈ cj).
Proof.
  destruct (form_colleagues 7 6 [1; 5]) as [ci|] eqn:Ei;
    [|by vm_compute in Ei].
  destruct (form_colleagues 7 2 [2; 6]) as [cj|] eqn:Ej;
    [|by vm_compute in Ej].
  destruct (quorums_intersect 7 6 2 [1; 5] [2; 6] ci cj) as [k Hk];
    [lia|lia|lia|exact Ei|exact Ej|].
  by exists ci, cj, k.
Defined.


(** X6: with at least one node, the padding loop stops, and quorum
    construction returns, on exactly those draws that together with the ids
    of the row and the column number at least 2*ceil(sqrt N) - 1 distinct
    ids. *)
Theorem padding_stops_iff (N id : nat) (draws : list nat) :
  1 <= N ->
  is_Some (form_colleagues N id draws) <->
  2 * ceil_sqrt N - 1 <= size (grid_set N id ∪ list_to_set draws).
Proof.
  intros _. rewrite <- QuorumSpec.padded_set_is_Some. unfold form_colleagues.
  destruct (padded_set N id draws) as [c|]; simpl.
  - split; eauto.
  - split; intros [? ?]; done.
Qed.

Lemma padding_stops_iff_witness :
  form_colleagues 5 4 [4; 0; 2] = Some [2; 3; 1; 0] /\
  (is_Some (form_colleagues 5 4 [4; 0; 2]) <->
   2 * ceil_sqrt 5 - 1 <= size (grid_set 5 4 ∪ list_to_set [4; 0; 2])).
Proof.
  split; [by vm_compute|]. apply (padding_stops_iff 5 4 [4; 0; 2]). lia.
Defined.

(** *** A square number of nodes *)

Lemma ceil_sqrt_square (m : nat) : ceil_sqrt (m * m) = m.
Proof.
  unfold ceil_sqrt. rewrite Nat.sqrt_square. by rewrite Nat.eqb_refl.
Qed.

Section Square.
Variables m id : nat.
Hypothesis Hm : 1 <= m.
Hypothesis Hid : id < m * m.

Lemma square_cell : id / m * m + id mod m = id /\ id / m < m /\ id mod m < m.
Proof.
  pose proof (Nat.div_mod_eq id m).
  pose proof (Nat.mod_upper_bound id m ltac:(lia)).
  split; [lia|]. split; [|done].
  apply Nat.Div0.div_lt_upper_bound. lia.
Qed.

Lemma square_row_subset :
  list_to_set ((fun j => id / m * m + j) <$> seq 0 m) ⊆ grid_set (m * m) id.
Proof.
  destruct square_cell as (_ & Hrow & _).
  intros x (j & -> & Hj%elem_of_seq)%elem_of_list_to_set%list_elem_of_fmap.
  apply grid_set_mem; [nia|]. rewrite ceil_sqrt_square.
  split; [nia|]. left. by apply div_mod_cell; lia.
Qed.

Lemma square_col_subset :
  list_to_set ((fun k => k * m + id mod m) <$> seq 0 m) ⊆ grid_set (m * m) id.
Proof.
  destruct square_cell as (_ & _ & Hcol).
  intros x (k & -> & Hk%elem_of_seq)%elem_of_list_to_set%list_elem_of_fmap.
  apply grid_set_mem; [nia|]. rewrite ceil_sqrt_square.
  split; [nia|]. right. by apply div_mod_cell.
Qed.

Lemma square_row_size :
  size (list_to_set ((fun j => id / m * m + j) <$> seq 0 m) : gset nat) = m.
Proof.
  rewrite size_list_to_set; [by rewrite length_fmap, length_seq|].
  apply NoDup_fmap_2; [|apply NoDup_seq]. intros a b ?. lia.
Qed.

Lemma square_col_size :
  size (list_to_set ((fun k => k * m + id mod m) <$> seq 0 m) : gset nat) = m.
Proof.
  rewrite size_list_to_set; [by rewrite length_fmap, length_seq|].
  apply NoDup_fmap_2; [|apply NoDup_seq]. intros a b ?. nia.
Qed.

(** With N = m * m the row and the column of a node are complete: the grid
    set has 2m - 1 ids before any padding. *)
Lemma grid_set_square_size : size (grid_set (m * m) id) = 2 * m - 1.
Proof.
  destruct square_cell as (Hcell & Hrow & Hcol).
  pose proof (QuorumSpec.grid_set_size (m * m) id ltac:(nia) Hid) as Hup.
  rewrite ceil_sqrt_square in Hup.
  set (R := list_to_set ((fun j => id / m * m + j) <$> seq 0 m) : gset nat).
  set (C := list_to_set ((fun k => k * m + id mod m) <$> seq 0 m) : gset nat).
  assert (R ∪ C ⊆ grid_set (m * m) id) as Hsub.
  { apply union_subseteq. split;
      [apply square_row_subset|apply square_col_subset]. }
  apply subseteq_size in Hsub. rewrite size_union_alt in Hsub.
  assert (C ∖ {[id]} ⊆ C ∖ R) as Hdiff.
  { intros x [Hx Hne]%elem_of_difference. apply elem_of_difference.
    split; [done|]. intros HxR. apply Hne, elem_of_singleton.
    apply elem_of_list_to_set, list_elem_of_fmap in Hx as (k & -> & Hk).
    apply elem_of_list_to_set, list_elem_of_fmap in HxR as (j & Hj & Hj').
    apply elem_of_seq in Hk, Hj'.
    destruct (div_mod_cell m k (id mod m) Hcol) as [Hd _].
    destruct (div_mod_cell m (id / m) j ltac:(lia)) as [Hd' _].
    rewrite Hj in Hd. rewrite Hd' in Hd. subst k. lia. }
  apply subseteq_size in Hdiff.
  rewrite size_difference in Hdiff.
  - fold R C in Hsub. unfold R, C in Hsub, Hdiff.
    rewrite square_row_size in Hsub. rewrite square_col_size in Hdiff.
    rewrite size_singleton in Hdiff. lia.
  - apply singleton_subseteq_l, elem_of_list_to_set, list_elem_of_fmap.
    exists (id / m). split; [lia|]. apply elem_of_seq. lia.
Qed.

End Square.

Lemma square_quorum (m id : nat) (draws : list nat) :
  1 <= m -> id < m * m ->
  padded_set (m * m) id draws = Some (grid_set (m * m) id) /\
  form_colleagues (m * m) id draws =
    Some (elements (grid_set (m * m) id ∖ {[id]})) /\
  length (elements (grid_set (m * m) id ∖ {[id]})) = 2 * m - 2.
Proof.
  intros Hm Hid.
  pose proof (grid_set_square_size m id Hm Hid) as Hsz.
  assert (padded_set (m * m) id draws = Some (grid_set (m * m) id)) as Hpad.
  { unfold padded_set. rewrite ceil_sqrt_square.
    rewrite QuorumSpec.pad_loop_unfold, Hsz.
    by rewrite (proj2 (Nat.ltb_ge _ _)) by lia. }
  split; [done|]. split; [unfold form_colleagues; by rewrite Hpad|].
  change (length (elements ?X)) with (size X).
  rewrite size_difference, size_singleton, Hsz; [lia|].
  apply singleton_subseteq_l, QuorumSpec.grid_set_own; [nia|done].
Qed.

(** X7: for a square number of nodes no random id is drawn: the quorum is the
    row and the column of the node, whatever [random.randint] would
    return. *)
Theorem square_needs_no_draws (m id : nat) (draws : list nat) :
  1 <= m -> id < m * m ->
  padded_set (m * m) id draws = Some (grid_set (m * m) id) /\
  form_colleagues (m * m) id draws =
    Some (elements (grid_set (m * m) id ∖ {[id]})) /\
  length (elements (grid_set (m * m) id ∖ {[id]})) = 2 * m - 2.
Proof. apply square_quorum. Qed.

Lemma square_needs_no_draws_witness :
  padded_set (3 * 3) 4 [8; 8; 0] = Some (grid_set (3 * 3) 4) /\
  form_colleagues (3 * 3) 4 [8; 8; 0] =
    Some (elements (grid_set (3 * 3) 4 ∖ {[4]})) /\
  length (elements (grid_set (3 * 3) 4 ∖ {[4]})) = 2 * 3 - 2.
Proof. apply (square_needs_no_draws 3 4 [8; 8; 0]); lia. Defined.

(** X8: for a square number of nodes being a colleague is mutual. *)
Theorem square_colleagues_symmetric (m i j : nat) (di dj ci cj : list nat) :
  1 <= m -> i < m * m -> j < m * m ->
  form_colleagues (m * m) i di = Some ci ->
  form_colleagues (m * m) j dj = Some cj ->
  j ∈ ci <-> i ∈ cj.
Proof.
  intros Hm Hi Hj Hci Hcj.
  destruct (square_quorum m i di Hm Hi) as (_ & Hci' & _).
  destruct (square_quorum m j dj Hm Hj) as (_ & Hcj' & _).
  rewrite Hci in Hci'. rewrite Hcj in Hcj'.
  injection Hci' as ->. injection Hcj' as ->.
  rewrite !elem_of_elements, !elem_of_difference, !elem_of_singleton.
  rewrite !grid_set_mem by nia. split; intros [(_ & [?|?]) ?]; auto.
Qed.


Lemma square_colleagues_symmetric_witness :
  exists ci cj,
    form_colleagues (3 * 3) 4 [] = Some ci /\
    form_colleagues (3 * 3) 7 [] = Some cj /\
    (7 ∈ ci <-> 4 ∈ cj).
Proof.
  destruct (form_colleagues (3 * 3) 4 []) as [ci|] eqn:Ei;
    [|by vm_compute in Ei].
  destruct (form_colleagues (3 * 3) 7 []) as [cj|] eqn:Ej;
    [|by vm_compute in Ej].
  exists ci, cj. split; [reflexivity|]. split; [reflexivity|].
  apply (square_colleagues_symmetric 3 4 7 [] [] ci cj); (lia || done).
Defined.

End QuorumExtra.

Module SystemExtra.
Import NodeM System.

(** *** Lifting a node-local invariant to the reachable states *)
Section Local.
Variable P : Node * loop_pc -> Prop.
Hypothesis P_init :
  forall N i draws cs, Quorum.form_colleagues N i draws = Some cs ->
                       P (init_node i cs, PcRequest).
Hypothesis P_msg :
  forall n pc m, P (n, pc) -> P (p_node (process_message n m), pc).
Hypothesis P_request :
  forall n, P (n, PcRequest) -> wakeupcounter n <= 2 ->
            P ((run_request n).1, PcWait).
Hypothesis P_finish :
  forall n, P (n, PcRequest) -> 2 < wakeupcounter n -> P (n, PcFinished).
Hypothesis P_enter :
  forall n n', P (n, PcWait) -> run_enter n = Some n' -> P (n', PcInCS).
Hypothesis P_exit : forall n, P (n, PcInCS) -> P (run_exit n, PcRelease).
Hypothesis P_release :
  forall n, P (n, PcRelease) -> P ((run_release n).1, PcRequest).

Lemma all_nodes_insert s i np c :
  all_nodes P s -> P np -> all_nodes P (mkSystem (<[i := np]> (nodes s)) c).
Proof.
  intros Hall Hnp j np' Hj. simpl in Hj.
  apply list_lookup_insert_Some in Hj as [(-> & <- & _)|[_ Hj]];
    [done|by eapply Hall].
Qed.

Lemma init_nodes_local N draws k ns :
  init_nodes N draws k = Some ns ->
  forall i np, ns !! i = Some np -> P np.
Proof.
  revert ns. induction k as [|k IH]; intros ns; simpl.
  - intros [= <-] i np Hi. done.
  - destruct (init_nodes N draws k) as [ns'|]; [|done]. simpl.
    destruct (Quorum.form_colleagues N k (draws k)) as [cs|] eqn:Ecs;
      [|done]. simpl.
    intros [= <-] i np Hi.
    apply lookup_snoc_Some in Hi as [[_ Hi]|[_ <-]]; [by eapply IH|].
    by eapply P_init.
Qed.

Lemma step_local e s s' : all_nodes P s -> step e s = Some s' -> all_nodes P s'.
Proof.
  intros Hall. destruct e as [i|i j]; simpl.
  - unfold loop_step.
    destruct (nodes s !! i) as [[n pc]|] eqn:En; [|done].
    cbn -[run_request run_release run_enter run_exit post].
    pose proof (Hall _ _ En) as Hn.
    destruct pc.
    + destruct (Nat.leb_spec (wakeupcounter n) 2).
      * pose proof (P_request n Hn ltac:(lia)) as Hn'.
        destruct (run_request n) as [n' out]. intros [= <-].
        by apply all_nodes_insert.
      * intros [= <-]. apply all_nodes_insert; [done|]. by apply P_finish.
    + destruct (run_enter n) as [n'|] eqn:Ee; [|done]. simpl.
      intros [= <-]. apply all_nodes_insert; [done|]. by eapply P_enter.
    + intros [= <-]. apply all_nodes_insert; [done|]. by apply P_exit.
    + pose proof (P_release n Hn) as Hn'.
      destruct (run_release n) as [n' out]. intros [= <-].
      by apply all_nodes_insert.
    + done.
  - unfold deliver_step.
    destruct (nodes s !! j) as [[n pc]|] eqn:En; [|done].
    cbn -[process_message post chan].
    destruct (chan (chans s) i j) as [|m rest]; [done|].
    intros [= <-]. apply all_nodes_insert; [done|].
    apply P_msg. by eapply Hall.
Qed.

Lemma reachable_local N draws s : reachable N draws s -> all_nodes P s.
Proof.
  intros (s0 & tr & Hinit & Hrun).
  assert (all_nodes P s0) as H0.
  { unfold init_system in Hinit.
    destruct (init_nodes N draws N) as [ns|] eqn:E; [|done]. simpl in Hinit.
    injection Hinit as <-. intros i np Hi. by eapply init_nodes_local. }
  clear Hinit. revert s0 H0 Hrun.
  induction tr as [|e tr IH]; intros s0 H0; simpl.
  - by intros [= <-].
  - destruct (step e s0) as [s1|] eqn:E; [|done]. simpl.
    apply IH. by eapply step_local.
Qed.

End Local.


(** *** Instances *)

Lemma idle_everywhere N draws s :
  reachable N draws s ->
  all_nodes (fun np => idle_grant_means_empty_queue np.1) s.
Proof.
  apply reachable_local.
  - done.
  - intros n pc m. apply NodeExtra.process_message_idle.
  - done.
  - done.
  - intros n n' Hn. unfold run_enter. destruct (must_wait n); [done|].
    by intros [= <-].
  - done.
  - done.
Qed.

Lemma cs_grants_everywhere N draws s :
  reachable N draws s -> all_nodes (fun np => cs_holds_grants np.1) s.
Proof.
  apply reachable_local.
  - done.
  - intros n pc m. apply NodeExtra.process_message_cs.
  - intros n Hn _ Hin. simpl in *. specialize (Hn Hin).
    etrans; [exact Hn|]. apply subseteq_size. set_solver.
  - done.
  - intros n n' _. unfold run_enter, must_wait.
    destruct (Nat.ltb_spec (size (grants_received n)) (length (colleagues n)));
      [done|]. by intros [= <-] _.
  - done.
  - done.
Qed.

Lemma sorted_everywhere N draws s :
  reachable N draws s -> all_nodes (fun np => pq_sorted (queue np.1)) s.
Proof.
  apply reachable_local.
  - intros. constructor.
  - intros n pc m. apply NodeExtra.process_message_sorted.
  - done.
  - done.
  - intros n n' Hn. unfold run_enter. destruct (must_wait n); [done|].
    by intros [= <-].
  - done.
  - done.
Qed.

Lemma nodup_everywhere N draws s :
  reachable N draws s -> all_nodes (fun np => NoDup (colleagues np.1)) s.
Proof.
  apply reachable_local.
  - intros N' i dr cs. unfold Quorum.form_colleagues.
    destruct (Quorum.padded_set N' i dr) as [c|]; [|done]. simpl.
    intros [= <-]. apply NoDup_elements.
  - intros n pc m Hn.
    destruct (NodeExtra.process_message_frame n m) as (_ & Hcol & _).
    simpl in *. by rewrite Hcol.
  - done.
  - done.
  - intros n n' Hn. unfold run_enter. destruct (must_wait n); [done|].
    by intros [= <-].
  - done.
  - done.
Qed.

Lemma loop_ok_msg n pc m :
  loop_ok (n, pc) -> loop_ok (p_node (process_message n m), pc).
Proof.
  intros (Hv & Hw & Hf & Hcs).
  destruct (NodeExtra.process_message_frame n m) as (_ & _ & Hin & Hwc).
  unfold loop_ok, visits in *. simpl in *. by rewrite Hin, Hwc.
Qed.

Lemma loop_ok_request n :
  loop_ok (n, PcRequest) -> wakeupcounter n <= 2 ->
  loop_ok ((run_request n).1, PcWait).
Proof.
  intros (Hv & Hw & Hf & Hcs) Hle. unfold loop_ok, visits in *.
  simpl in *. split_and!; try done; try lia.
  split; [|done]. intros Hin. by apply Hcs in Hin.
Qed.

Lemma loop_ok_finish n :
  loop_ok (n, PcRequest) -> 2 < wakeupcounter n -> loop_ok (n, PcFinished).
Proof.
  intros (Hv & Hw & Hf & Hcs) Hlt. unfold loop_ok, visits in *.
  simpl in *. split_and!; try done; try lia.
  split; [|done]. intros Hin. by apply Hcs in Hin.
Qed.

Lemma loop_ok_enter n n' :
  loop_ok (n, PcWait) -> run_enter n = Some n' -> loop_ok (n', PcInCS).
Proof.
  intros (Hv & Hw & Hf & Hcs). unfold run_enter.
  destruct (must_wait n); [done|]. intros [= <-].
  unfold loop_ok, visits in *. simpl in *.
  specialize (Hw eq_refl). split_and!; try done; lia.
Qed.

Lemma loop_ok_exit n : loop_ok (n, PcInCS) -> loop_ok (run_exit n, PcRelease).
Proof.
  intros (Hv & Hw & Hf & Hcs). unfold loop_ok, visits in *. simpl in *.
  split_and!; try done.
Qed.

Lemma loop_ok_release n :
  loop_ok (n, PcRelease) -> loop_ok ((run_release n).1, PcRequest).
Proof.
  intros (Hv & Hw & Hf & Hcs). unfold loop_ok, visits in *. simpl in *.
  split_and!; try done; try lia.
  split; [|done]. intros Hin. by apply Hcs in Hin.
Qed.

Lemma loop_ok_everywhere N draws s :
  reachable N draws s -> all_nodes loop_ok s.
Proof.
  apply reachable_local.
  - intros. unfold loop_ok, visits. simpl. split_and!; (done || lia).
  - apply loop_ok_msg.
  - apply loop_ok_request.
  - apply loop_ok_finish.
  - apply loop_ok_enter.
  - apply loop_ok_exit.
  - apply loop_ok_release.
Qed.

Lemma loop_ok_step e s s' :
  all_nodes loop_ok s -> step e s = Some s' -> all_nodes loop_ok s'.
Proof.
  apply step_local.
  - apply loop_ok_msg.
  - apply loop_ok_request.
  - apply loop_ok_finish.
  - apply loop_ok_enter.
  - apply loop_ok_exit.
  - apply loop_ok_release.
Qed.


(** *** Lifting a fact about written messages to the messages in flight *)
Section InFlight.
Variable Q : nat -> Message -> Prop.
Hypothesis Q_msg :
  forall n m, Forall (fun dm => Q dm.1 dm.2) (p_sent (process_message n m)).
Hypothesis Q_request :
  forall n, Forall (fun dm => Q dm.1 dm.2) (run_request n).2.
Hypothesis Q_release :
  forall n, Forall (fun dm => Q dm.1 dm.2) (run_release n).2.

Lemma all_in_flight_insert (c : gmap (nat * nat) (list Message))
    (i j : nat) (l : list Message) :
  (forall i' j' l', c !! (i', j') = Some l' -> Forall (Q j') l') ->
  Forall (Q j) l ->
  forall i' j' l', <[(i, j) := l]> c !! (i', j') = Some l' -> Forall (Q j') l'.
Proof.
  intros Hc Hl i' j' l' Hlook.
  apply lookup_insert_Some in Hlook as [[[= <- <-] <-]|[_ Hlook]];
    [done|by eapply Hc].
Qed.

Lemma all_in_flight_chan (c : gmap (nat * nat) (list Message)) (i j : nat) :
  (forall i' j' l', c !! (i', j') = Some l' -> Forall (Q j') l') ->
  Forall (Q j) (chan c i j).
Proof.
  intros Hc. unfold chan. destruct (c !! (i, j)) eqn:E; simpl;
    [by eapply Hc|constructor].
Qed.

Lemma all_in_flight_post (i : nat) (out : outbox)
    (c : gmap (nat * nat) (list Message)) :
  Forall (fun dm => Q dm.1 dm.2) out ->
  (forall i' j' l', c !! (i', j') = Some l' -> Forall (Q j') l') ->
  forall i' j' l', post i out c !! (i', j') = Some l' -> Forall (Q j') l'.
Proof.
  intros Hout. revert c. unfold post.
  induction Hout as [|[d m] out Hm Hout IH]; intros c Hc; simpl; [done|].
  apply IH. apply all_in_flight_insert; [done|].
  apply Forall_app. split; [by apply all_in_flight_chan|].
  constructor; [exact Hm|constructor].
Qed.

Lemma step_in_flight e s s' :
  all_in_flight Q s -> step e s = Some s' -> all_in_flight Q s'.
Proof.
  unfold all_in_flight. intros Hall. destruct e as [i|i j]; simpl.
  - unfold loop_step.
    destruct (nodes s !! i) as [[n pc]|] eqn:En; [|done].
    cbn -[run_request run_release run_enter run_exit post].
    destruct pc.
    + destruct (wakeupcounter n <=? 2).
      * pose proof (Q_request n) as Hq.
        destruct (run_request n) as [n' out]. intros [= <-]. simpl.
        by apply all_in_flight_post.
      * by intros [= <-].
    + destruct (run_enter n); [|done]. by intros [= <-].
    + by intros [= <-].
    + pose proof (Q_release n) as Hq.
      destruct (run_release n) as [n' out]. intros [= <-]. simpl.
      by apply all_in_flight_post.
    + done.
  - unfold deliver_step.
    destruct (nodes s !! j) as [[n pc]|] eqn:En; [|done].
    cbn -[process_message post chan].
    pose proof (all_in_flight_chan (chans s) i j Hall) as Hch.
    destruct (chan (chans s) i j) as [|m rest]; [done|].
    apply Forall_cons in Hch as [_ Hrest].
    intros [= <-]. simpl. apply all_in_flight_post; [apply Q_msg|].
    by apply all_in_flight_insert.
Qed.

Lemma reachable_in_flight N draws s : reachable N draws s -> all_in_flight Q s.
Proof.
  intros (s0 & tr & Hinit & Hrun).
  assert (all_in_flight Q s0) as H0.
  { unfold init_system in Hinit.
    destruct (init_nodes N draws N) as [ns|]; [|done]. simpl in Hinit.
    injection Hinit as <-. intros i j l Hl. simpl in Hl.
    by rewrite lookup_empty in Hl. }
  clear Hinit. revert s0 H0 Hrun.
  induction tr as [|e tr IH]; intros s0 H0; simpl.
  - by intros [= <-].
  - destruct (step e s0) as [s1|] eqn:E; [|done]. simpl.
    apply IH. by eapply step_in_flight.
Qed.

End InFlight.

Lemma process_message_sent_ok (n : Node) (m : Message) :
  Forall (fun dm => sent_ok dm.1 dm.2) (p_sent (process_message n m)).
Proof.
  unfold process_message, dispatch, sent_ok.
  set (n1 := receive_tick n m).
  destruct (String.eqb (msg_type m) REQUEST).
  { unfold request_handler, send_message.
    repeat case_match; simplify_eq; simpl; repeat constructor; simpl;
      (done || (by intros [? [=]]) || eauto). }
  destruct (String.eqb (msg_type m) YIELD).
  { unfold yield_handler, grant_next, send_message.
    repeat case_match; simplify_eq; simpl; repeat constructor; simpl;
      (done || (by intros [? [=]])). }
  destruct (String.eqb (msg_type m) RELEASE).
  { unfold release_handler, grant_next, send_message.
    repeat case_match; simplify_eq; simpl; repeat constructor; simpl;
      (done || (by intros [? [=]])). }
  destruct (String.eqb (msg_type m) INQUIRE).
  { unfold inquire_handler, send_message.
    repeat case_match; simplify_eq; simpl; repeat constructor; simpl;
      (done || (by intros [? [=]])). }
  destruct (String.eqb (msg_type m) GRANT); [constructor|].
  destruct (String.eqb (msg_type m) FAILED); constructor.
Qed.

Lemma multicast_sent_ok (n : Node) (t : string) :
  t <> INQUIRE ->
  Forall (fun dm => sent_ok dm.1 dm.2)
    (multicast n (mkMessage t (id n) None (lamport_ts n) None) (colleagues n)).2.
Proof.
  intros Ht. unfold multicast. simpl. apply Forall_map, Forall_forall.
  intros d _. unfold sent_ok. simpl. split; [done|].
  split; [by intros [? [=]]|done].
Qed.

(** X17: every message in flight from node [i] to node [j] names [i] as its
    source and [j] as its destination, with [i] and [j] different; it has
    one of the six types and carries [data] exactly when it is an
    INQUIRE. *)
Theorem in_flight_well_formed N draws s i j m :
  reachable N draws s -> m ∈ chan (chans s) i j -> wire_ok i j m.
Proof.
  intros Hreach Hin.
  pose proof (SystemSpec.reachable_ok _ _ _ Hreach) as [_ Hc].
  pose proof (SystemSpec.chan_ok _ i j Hc) as Hok.
  assert (all_in_flight sent_ok s) as Hs.
  { eapply reachable_in_flight; [| | |exact Hreach].
    - apply process_message_sent_ok.
    - intros n. unfold run_request.
      apply (multicast_sent_ok (set_grants_received n _) REQUEST). done.
    - intros n. unfold run_release.
      pose proof (multicast_sent_ok n RELEASE ltac:(done)) as Hm.
      by destruct (multicast _ _ _). }
  pose proof (all_in_flight_chan sent_ok (chans s) i j Hs) as Hsent.
  rewrite Forall_forall in Hok, Hsent.
  destruct (Hok m Hin) as (? & ? & ?). destruct (Hsent m Hin) as (? & ?).
  unfold wire_ok. by split_and!.
Qed.


(** *** Two reachable states of the system of 4 nodes *)

Lemma four_nodes_init : init_system 4 no_draws = Some four_nodes.
Proof. by vm_compute. Qed.

Lemma four_nodes_reachable : reachable 4 no_draws four_nodes.
Proof. exists four_nodes, []. split; [apply four_nodes_init|done]. Qed.

Lemma four_nodes_cs_run :
  run_trace node0_enters four_nodes = Some four_nodes_cs.
Proof. by vm_compute. Qed.

Lemma four_nodes_cs_reachable : reachable 4 no_draws four_nodes_cs.
Proof.
  exists four_nodes, node0_enters.
  split; [apply four_nodes_init|apply four_nodes_cs_run].
Qed.

Lemma four_nodes_served_run :
  run_trace served_in_turn four_nodes = Some four_nodes_served.
Proof. by vm_compute. Qed.

Lemma four_nodes_served_reachable : reachable 4 no_draws four_nodes_served.
Proof.
  exists four_nodes, served_in_turn.
  split; [apply four_nodes_init|apply four_nodes_served_run].
Qed.

(** *** The theorems on node-local invariants *)

(** X15: a node that has no grant outstanding has no request waiting in
    its queue. *)
Theorem no_request_waits_without_grant N draws s i n pc :
  reachable N draws s -> nodes s !! i = Some (n, pc) ->
  grants_sent n = None -> queue n = [].
Proof.
  intros Hreach Hi. by apply (idle_everywhere _ _ _ Hreach i (n, pc) Hi).
Qed.

Lemma no_request_waits_without_grant_witness :
  queue_of four_nodes_waiting 1 = [(1%Z, 3)] /\
  exists n pc, nodes four_nodes_served !! 1 = Some (n, pc) /\
               lamport_ts n = 10%Z /\ grants_sent n = None /\
               queue n = [].
Proof.
  split; [by vm_compute|].
  destruct (nodes four_nodes_served !! 1) as [[n pc]|] eqn:E;
    [|by vm_compute in E].
  assert (lamport_ts n = 10%Z /\ grants_sent n = None) as [Hts Hg]
    by (vm_compute in E; injection E as <- <-; split; reflexivity).
  exists n, pc. split; [reflexivity|]. split; [exact Hts|].
  split; [exact Hg|].
  exact (no_request_waits_without_grant 4 no_draws four_nodes_served 1 n pc
           four_nodes_served_reachable E Hg).
Defined.

(** X16: while a node is in the critical section it holds at least as many
    grants (its own included) as it has colleagues: the count it entered
    with is not reduced before it leaves. *)
Theorem cs_keeps_grants N draws s i n pc :
  reachable N draws s -> nodes s !! i = Some (n, pc) ->
  in_CS n = true -> length (colleagues n) <= size (grants_received n).
Proof.
  intros Hreach Hi. by apply (cs_grants_everywhere _ _ _ Hreach i (n, pc) Hi).
Qed.

Lemma cs_keeps_grants_witness :
  exists n pc, nodes four_nodes_cs !! 0 = Some (n, pc) /\
               in_CS n = true /\
               length (colleagues n) <= size (grants_received n).
Proof.
  destruct (nodes four_nodes_cs !! 0) as [[n pc]|] eqn:E;
    [|by vm_compute in E].
  assert (in_CS n = true) as Hin
    by (vm_compute in E; injection E as <- <-; reflexivity).
  exists n, pc. split; [reflexivity|]. split; [exact Hin|].
  exact (cs_keeps_grants 4 no_draws four_nodes_cs 0 n pc
           four_nodes_cs_reachable E Hin).
Defined.

(** *** Entries into the critical section *)

Lemma enters_deliver i k j s : enters i (EvDeliver k j) s = false.
Proof. unfold enters. by repeat case_match. Qed.

Lemma step_visits i e s s' :
  step e s = Some s' ->
  visits_of s' i = visits_of s i + (if enters i e s then 1 else 0).
Proof.
  destruct e as [k|k j]; [unfold visits_of, enters|rewrite enters_deliver];
    simpl.
  - unfold loop_step.
    destruct (nodes s !! k) as [[n pc]|] eqn:En; [|done].
    cbn -[run_request run_release run_enter run_exit post].
    destruct (decide (k = i)) as [->|Hne].
    + rewrite En. rewrite Nat.eqb_refl.
      pose proof (lookup_lt_Some _ _ _ En) as Hlt.
      destruct pc.
      * destruct (wakeupcounter n <=? 2).
        -- intros [= <-]. simpl. rewrite list_lookup_insert_eq by done.
           unfold visits. simpl. lia.
        -- intros [= <-]. simpl. rewrite list_lookup_insert_eq by done.
           unfold visits. simpl. lia.
      * unfold run_enter. destruct (must_wait n); [done|]. simpl.
        intros [= <-]. simpl. rewrite list_lookup_insert_eq by done.
        unfold visits. simpl. lia.
      * intros [= <-]. simpl. rewrite list_lookup_insert_eq by done.
        unfold visits. simpl. lia.
      * intros [= <-]. simpl. rewrite list_lookup_insert_eq by done.
        unfold visits. simpl. lia.
      * done.
    + assert (forall np c s1,
                s1 = mkSystem (<[k := np]> (nodes s)) c ->
                match nodes s1 !! i with Some np' => visits np' | None => 0 end
                = match nodes s !! i with Some np' => visits np' | None => 0 end
                  + (if match nodes s !! i with
                         | Some (_, PcWait) => k =? i
                         | _ => false
                         end then 1 else 0)) as Hother.
      { intros np c s1 ->. simpl. rewrite list_lookup_insert_ne by done.
        apply Nat.eqb_neq in Hne. rewrite Hne.
        repeat case_match; lia. }
      destruct pc.
      * destruct (wakeupcounter n <=? 2).
        -- destruct (run_request n). intros [= <-]. by eapply Hother.
        -- intros [= <-]. by eapply Hother.
      * destruct (run_enter n); [|done]. intros [= <-]. by eapply Hother.
      * intros [= <-]. by eapply Hother.
      * destruct (run_release n). intros [= <-]. by eapply Hother.
      * done.
  - unfold deliver_step.
    destruct (nodes s !! j) as [[n pc]|] eqn:En; [|done].
    cbn -[process_message post chan].
    destruct (chan (chans s) k j) as [|m rest]; [done|].
    intros [= <-]. unfold visits_of. simpl.
    destruct (decide (j = i)) as [->|Hne].
    + rewrite En. rewrite list_lookup_insert_eq
        by (by eapply lookup_lt_Some).
      destruct (NodeExtra.process_message_frame n m) as (_ & _ & _ & Hwc).
      unfold visits. simpl in *. rewrite Hwc. lia.
    + rewrite list_lookup_insert_ne by done. lia.
Qed.

Lemma cs_entries_bound i tr :
  forall s, all_nodes loop_ok s -> cs_entries i tr s + visits_of s i <= 3.
Proof.
  induction tr as [|e tr IH]; intros s Hall; simpl.
  - unfold visits_of. destruct (nodes s !! i) as [np|] eqn:E; [|lia].
    by destruct (Hall _ _ E) as (Hv & _).
  - destruct (step e s) as [s'|] eqn:E.
    + pose proof (step_visits i _ _ _ E) as Hv.
      assert (all_nodes loop_ok s') as Hall' by (by eapply loop_ok_step).
      specialize (IH s' Hall'). lia.
    + unfold visits_of. destruct (nodes s !! i) as [np|] eqn:E'; [|lia].
      by destruct (Hall _ _ E') as (Hv & _).
Qed.

(** X23: along every schedule a node enters the critical section at most
    three times. *)
Theorem at_most_three_entries N draws s0 tr i :
  init_system N draws = Some s0 -> cs_entries i tr s0 <= 3.
Proof.
  intros Hinit.
  assert (all_nodes loop_ok s0) as Hall.
  { apply (loop_ok_everywhere N draws). by exists s0, []. }
  pose proof (cs_entries_bound i tr s0 Hall). lia.
Qed.

Lemma at_most_three_entries_witness :
  cs_entries 0 crossing_requests four_nodes <= 3.
Proof.
  apply (at_most_three_entries 4 no_draws four_nodes crossing_requests 0).
  by vm_compute.
Defined.

(** X24: a node whose loop thread is done has been in the critical
    section three times. *)
Theorem finished_after_three N draws s i n :
  reachable N draws s -> nodes s !! i = Some (n, PcFinished) ->
  wakeupcounter n = 3.
Proof.
  intros Hreach Hi.
  destruct (loop_ok_everywhere _ _ _ Hreach i _ Hi) as (_ & _ & Hf & _).
  by apply Hf.
Qed.


Lemma one_node_init : init_system 1 no_draws = Some one_node.
Proof. by vm_compute. Qed.

Lemma one_node_done_reachable : reachable 1 no_draws one_node_done.
Proof.
  exists one_node, (replicate 13 (EvLoop 0)).
  split; [apply one_node_init|by vm_compute].
Qed.

Lemma finished_after_three_witness :
  exists n, nodes one_node_done !! 0 = Some (n, PcFinished) /\
            wakeupcounter n = 3.
Proof.
  destruct (nodes one_node_done !! 0) as [[n pc]|] eqn:E;
    [|by vm_compute in E].
  assert (pc = PcFinished) as ->
    by (vm_compute in E; by injection E as <- <-).
  exists n. split; [reflexivity|].
  exact (finished_after_three 1 no_draws one_node_done 0 n
           one_node_done_reachable E).
Defined.

Lemma in_flight_well_formed_witness :
  exists m, chan (chans four_nodes_cs) 0 2 = [m] /\ wire_ok 0 2 m.
Proof.
  destruct (chan (chans four_nodes_cs) 0 2) as [|m [|m' l]] eqn:E;
    [by vm_compute in E| |by vm_compute in E].
  exists m. split; [reflexivity|].
  apply (in_flight_well_formed 4 no_draws four_nodes_cs 0 2 m).
  - apply four_nodes_cs_reachable.
  - rewrite E. by apply list_elem_of_singleton.
Defined.


Lemma deliver_never_raises_witness :
  exists n pc m,
    nodes four_nodes_cs !! 2 = Some (n, pc) /\
    chan (chans four_nodes_cs) 0 2 = [m] /\
    p_raised (process_message n m) = None.
Proof.
  destruct (nodes four_nodes_cs !! 2) as [[n pc]|] eqn:En;
    [|by vm_compute in En].
  destruct (chan (chans four_nodes_cs) 0 2) as [|m [|m' l]] eqn:E;
    [by vm_compute in E| |by vm_compute in E].
  exists n, pc, m. split; [reflexivity|]. split; [reflexivity|].
  exact (SystemSpec.deliver_never_raises 4 no_draws four_nodes_cs 0 2 n pc m []
           four_nodes_cs_reachable En E).
Defined.

End SystemExtra.

Module QuorumInv.
Import NodeM System.

Section Serving.
Variable cols : nat -> list nat.

Lemma grant_next_quorum j n n' out :
  id n = j -> quorum_node_ok cols j n -> grant_next n = Some (n', out) ->
  quorum_node_ok cols j n' /\
  Forall (fun dm => quorum_msg_ok cols j dm.1 dm.2) out.
Proof.
  intros Hid (Hcol & Hq & Hg & Hr). unfold grant_next, send_message.
  destruct (queue n) as [|[q_ts q_src] q'] eqn:Eq; simpl; [done|].
  intros [= <- <-]. apply Forall_cons in Hq as [Hhd Hq]. simpl in Hhd.
  split.
  - unfold quorum_node_ok. simpl. split_and!; try done.
    by intros g [= <-].
  - constructor; [|constructor]. unfold quorum_msg_ok. simpl. by rewrite ?Hid.
Qed.

Lemma clear_grant_quorum j n msg :
  quorum_node_ok cols j n -> quorum_node_ok cols j (clear_grant_if_equal n msg).
Proof.
  intros Hn. unfold clear_grant_if_equal.
  destruct (grants_sent n) as [g|]; [|done].
  destruct (prio_eqb _ g); [|done].
  destruct Hn as (? & ? & ? & ?). unfold quorum_node_ok. simpl.
  by split_and!.
Qed.

Lemma process_message_quorum i j n m :
  id n = j -> src m = i ->
  quorum_node_ok cols j n -> quorum_msg_ok cols i j m ->
  quorum_node_ok cols j (p_node (process_message n m)) /\
  Forall (fun dm => quorum_msg_ok cols j dm.1 dm.2)
         (p_sent (process_message n m)).
Proof.
  intros Hid Hsrc Hn Hm. unfold process_message, dispatch.
  assert (quorum_node_ok cols j (receive_tick n m)) as Hn1 by exact Hn.
  assert (id (receive_tick n m) = j) as Hid1 by exact Hid.
  set (n1 := receive_tick n m) in *. clearbody n1. clear Hn Hid n.
  unfold quorum_msg_ok in Hm.
  destruct (String.eqb (msg_type m) REQUEST) eqn:E1.
  { apply String.eqb_eq in E1. rewrite E1 in Hm. simpl in Hm.
    destruct Hn1 as (Hcol & Hq & Hg & Hr).
    unfold request_handler, send_message.
    destruct (grants_sent n1) as [[hp_ts hp_src]|] eqn:Eg.
    - specialize (Hg _ eq_refl). simpl in Hg.
      destruct (prio_ltb _ _); simpl.
      + split.
        * unfold quorum_node_ok. simpl. rewrite Eg. split_and!; try done.
          -- apply SystemSpec.Forall_pq_put; [by rewrite ?Hsrc|done].
          -- by intros g [= <-].
        * constructor; [|constructor]. unfold quorum_msg_ok. simpl.
          by rewrite ?Hsrc, ?Hid1.
      + split.
        * unfold quorum_node_ok. simpl. rewrite Eg. split_and!; try done.
          -- apply SystemSpec.Forall_pq_put; [by rewrite ?Hsrc|done].
          -- by intros g [= <-].
        * constructor; [|constructor]. unfold quorum_msg_ok. simpl.
          by rewrite ?Hid1.
    - simpl. split.
      + unfold quorum_node_ok. simpl. split_and!; try done.
        intros g [= <-]. simpl. by rewrite ?Hsrc.
      + constructor; [|constructor]. unfold quorum_msg_ok. simpl.
        by rewrite ?Hsrc, ?Hid1. }
  destruct (String.eqb (msg_type m) YIELD) eqn:E2.
  { apply String.eqb_eq in E2. rewrite E2 in Hm. simpl in Hm.
    unfold yield_handler.
    assert (quorum_node_ok cols j (clear_grant_if_equal
              (set_queue n1 (pq_put (ts m, src m) (queue n1))) m)) as Hn2.
    { apply clear_grant_quorum. destruct Hn1 as (Hcol & Hq & Hg & Hr).
      unfold quorum_node_ok. simpl. split_and!; try done.
      apply SystemSpec.Forall_pq_put; [by rewrite ?Hsrc|done]. }
    destruct (grant_next _) as [[n' out]|] eqn:E; simpl.
    - eapply grant_next_quorum; [|exact Hn2|exact E].
      by destruct (NodeExtra.clear_grant_frame
                     (set_queue n1 (pq_put (ts m, src m) (queue n1))) m)
        as (-> & _).
    - split; [done|constructor]. }
  destruct (String.eqb (msg_type m) RELEASE) eqn:E3.
  { unfold release_handler.
    pose proof (clear_grant_quorum j n1 m Hn1) as (Hcol & Hq & Hg & Hr).
    set (n2 := clear_grant_if_equal n1 m) in *.
    assert (id n2 = j) as Hid2.
    { unfold n2. by destruct (NodeExtra.clear_grant_frame n1 m) as (-> & _). }
    assert (quorum_node_ok cols j (set_queue n2 (purge (src m) (queue n2) [])))
      as Hn3.
    { unfold quorum_node_ok. simpl. split_and!; try done.
      by apply SystemSpec.Forall_purge. }
    destruct (grant_next _) as [[n' out]|] eqn:E; simpl.
    - eapply grant_next_quorum; [|exact Hn3|exact E]. done.
    - split; [|constructor]. destruct Hn3 as (? & ? & ? & ?).
      unfold quorum_node_ok. simpl. by split_and!. }
  destruct (String.eqb (msg_type m) INQUIRE) eqn:E4.
  { apply String.eqb_eq in E4. rewrite E4 in Hm. simpl in Hm.
    destruct Hn1 as (Hcol & Hq & Hg & Hr).
    unfold inquire_handler, send_message.
    destruct (negb (in_CS n1)); simpl; [|by split; [|constructor]].
    destruct (decide (src m ∈ grants_received n1)); simpl.
    - split.
      + unfold quorum_node_ok. simpl. split_and!; try done.
        intros x Hx. apply Hr. set_solver.
      + constructor; [|constructor]. unfold quorum_msg_ok. simpl.
        by rewrite ?Hsrc, ?Hid1.
    - split; [by unfold quorum_node_ok|].
      constructor; [|constructor]. unfold quorum_msg_ok. simpl.
      by rewrite ?Hsrc, ?Hid1. }
  destruct (String.eqb (msg_type m) GRANT) eqn:E5.
  { apply String.eqb_eq in E5. rewrite E5 in Hm. simpl in Hm.
    destruct Hn1 as (Hcol & Hq & Hg & Hr). simpl. split; [|constructor].
    unfold quorum_node_ok. simpl. split_and!; try done.
    intros x [Hx| ->%elem_of_singleton]%elem_of_union; [by apply Hr|].
    right. rewrite Hsrc. exact Hm. }
  destruct (String.eqb (msg_type m) FAILED).
  { simpl. split; [|constructor]. destruct Hn1 as (? & ? & ? & ?).
    unfold quorum_node_ok. simpl. by split_and!. }
  simpl. split; [done|constructor].
Qed.


Lemma multicast_quorum j n t :
  id n = j -> colleagues n = cols j -> client_msg t = true ->
  Forall (fun dm => quorum_msg_ok cols j dm.1 dm.2)
    (multicast n (mkMessage t (id n) None (lamport_ts n) None) (colleagues n)).2.
Proof.
  intros Hid Hcol Ht. unfold multicast. simpl.
  apply Forall_map, Forall_forall. intros d Hd.
  unfold quorum_msg_ok. simpl. rewrite Ht. unfold serves. by rewrite <- Hcol.
Qed.

Lemma quorum_chan (c : gmap (nat * nat) (list Message)) (i j : nat) :
  (forall a b l, c !! (a, b) = Some l -> Forall (quorum_msg_ok cols a b) l) ->
  Forall (quorum_msg_ok cols i j) (chan c i j).
Proof.
  intros Hc. unfold chan. destruct (c !! (i, j)) eqn:E; simpl;
    [by eapply Hc|constructor].
Qed.

Lemma quorum_insert (c : gmap (nat * nat) (list Message)) (i j : nat)
    (l : list Message) :
  (forall a b l', c !! (a, b) = Some l' -> Forall (quorum_msg_ok cols a b) l') ->
  Forall (quorum_msg_ok cols i j) l ->
  forall a b l', <[(i, j) := l]> c !! (a, b) = Some l' ->
                 Forall (quorum_msg_ok cols a b) l'.
Proof.
  intros Hc Hl a b l' Hlook.
  apply lookup_insert_Some in Hlook as [[[= <- <-] <-]|[_ Hlook]];
    [done|by eapply Hc].
Qed.

Lemma quorum_post (i : nat) (out : outbox)
    (c : gmap (nat * nat) (list Message)) :
  Forall (fun dm => quorum_msg_ok cols i dm.1 dm.2) out ->
  (forall a b l, c !! (a, b) = Some l -> Forall (quorum_msg_ok cols a b) l) ->
  forall a b l, post i out c !! (a, b) = Some l ->
                Forall (quorum_msg_ok cols a b) l.
Proof.
  intros Hout. revert c. unfold post.
  induction Hout as [|[d m] out Hm Hout IH]; intros c Hc; simpl; [done|].
  apply IH. apply quorum_insert; [done|].
  apply Forall_app. split; [by apply quorum_chan|].
  constructor; [exact Hm|constructor].
Qed.

Lemma quorum_nodes_insert s k n pc c :
  (forall k' n' pc', nodes s !! k' = Some (n', pc') ->
                     quorum_node_ok cols k' n') ->
  quorum_node_ok cols k n ->
  forall k' n' pc',
    nodes (mkSystem (<[k := (n, pc)]> (nodes s)) c) !! k' = Some (n', pc') ->
    quorum_node_ok cols k' n'.
Proof.
  intros Hall Hn k' n' pc' Hk. simpl in Hk.
  apply list_lookup_insert_Some in Hk as [(-> & [= <- <-] & _)|[_ Hk]];
    [done|by eapply Hall].
Qed.

Lemma step_quorum e s s' :
  sys_ok s -> quorum_ok cols s -> step e s = Some s' -> quorum_ok cols s'.
Proof.
  intros [Hns Hch] [Hqn Hqc]. destruct e as [k|k j]; simpl.
  - unfold loop_step.
    destruct (nodes s !! k) as [[n pc]|] eqn:En; [|done].
    cbn -[run_request run_release run_enter run_exit post].
    destruct (Hns _ _ _ En) as (Hid & _).
    pose proof (Hqn _ _ _ En) as Hn. pose proof Hn as (Hcol & Hq & Hg & Hr).
    destruct pc.
    + destruct (wakeupcounter n <=? 2).
      * pose proof (multicast_quorum k
                      (set_grants_received n (grants_received n ∪ {[id n]}))
                      REQUEST Hid Hcol eq_refl) as Hout.
        unfold run_request.
        destruct (multicast _ _ _) as [n' out] eqn:Em. intros [= <-].
        split; [|by apply quorum_post].
        apply quorum_nodes_insert; [done|].
        unfold multicast in Em. injection Em as <- _.
        unfold quorum_node_ok. simpl.
        split_and!;
          first [done
                |intros x [Hx| ->%elem_of_singleton]%elem_of_union;
                 [by apply Hr|by left]].
      * intros [= <-]. split; [|done]. by apply quorum_nodes_insert.
    + unfold run_enter. destruct (must_wait n); [done|]. simpl.
      intros [= <-]. split; [|done]. by apply quorum_nodes_insert.
    + intros [= <-]. split; [|done]. apply quorum_nodes_insert; [done|].
      unfold quorum_node_ok. simpl.
      split_and!; first [done|by intros x ?%elem_of_empty].
    + pose proof (multicast_quorum k n RELEASE Hid Hcol eq_refl) as Hout.
      unfold run_release.
      destruct (multicast _ _ _) as [n' out] eqn:Em. intros [= <-].
      split; [|by apply quorum_post].
      apply quorum_nodes_insert; [done|].
      unfold multicast in Em. injection Em as <- _.
      unfold quorum_node_ok. simpl. by split_and!.
    + done.
  - unfold deliver_step.
    destruct (nodes s !! j) as [[n pc]|] eqn:En; [|done].
    cbn -[process_message post chan].
    destruct (Hns _ _ _ En) as (Hid & _).
    pose proof (SystemSpec.chan_ok _ k j Hch) as Hok.
    pose proof (quorum_chan (chans s) k j Hqc) as Hqm.
    destruct (chan (chans s) k j) as [|m rest]; [done|].
    apply Forall_cons in Hok as [(Hsrc & _) _].
    apply Forall_cons in Hqm as [Hm Hrest].
    intros [= <-].
    destruct (process_message_quorum k j n m Hid Hsrc (Hqn _ _ _ En) Hm)
      as [Hn' Hout].
    split.
    + by apply quorum_nodes_insert.
    + simpl. apply quorum_post; [done|]. by apply quorum_insert.
Qed.

End Serving.

Lemma init_quorum N draws s0 :
  init_system N draws = Some s0 -> quorum_ok (cols_of s0) s0.
Proof.
  unfold init_system.
  destruct (init_nodes N draws N) as [ns|] eqn:E; [|done]. simpl.
  intros [= <-]. split.
  - intros k n pc Hk.
    assert (exists cs, n = init_node k cs) as [cs ->].
    { clear -E Hk. revert ns E k n pc Hk.
      generalize N at 2. intros K. induction K as [|K IH]; intros ns; simpl.
      - by intros [= <-] k n pc Hk.
      - destruct (init_nodes N draws K) as [ns'|] eqn:E'; [|done]. simpl.
        destruct (Quorum.form_colleagues N K (draws K)) as [cs|]; [|done].
        simpl. intros [= <-] k n pc Hk.
        pose proof (SystemSpec.init_nodes_ok _ _ _ _ E') as [Hlen _].
        apply lookup_snoc_Some in Hk as [[_ Hk]|[-> [= <- <-]]];
          [by eapply IH|].
        rewrite Hlen. eauto. }
    simpl in Hk. unfold quorum_node_ok, cols_of. simpl. rewrite Hk. simpl.
    split_and!; first [done|by intros x ?%elem_of_empty].
  - intros i j l Hl. simpl in Hl. by rewrite lookup_empty in Hl.
Qed.

Lemma reachable_quorum N draws s :
  reachable N draws s ->
  exists cols, quorum_ok cols s.
Proof.
  intros (s0 & tr & Hinit & Hrun). exists (cols_of s0).
  pose proof (init_quorum _ _ _ Hinit) as Hq.
  pose proof (SystemSpec.init_system_ok _ _ _ Hinit) as Hok.
  clear Hinit. generalize (cols_of s0) Hq. clear Hq. intros cols Hq.
  revert s0 Hok Hq Hrun.
  induction tr as [|e tr IH]; intros s0 Hok Hq; simpl.
  - by intros [= <-].
  - destruct (step e s0) as [s1|] eqn:E; [|done]. simpl.
    apply IH; [by eapply SystemSpec.step_ok|by eapply step_quorum].
Qed.

Lemma size_union_le_sum (A B : gset nat) : size (A ∪ B) <= size A + size B.
Proof.
  rewrite size_union_alt.
  assert (size (B ∖ A) <= size B) by (apply subseteq_size; set_solver). lia.
Qed.

Lemma size_list_to_set_le (l : list nat) :
  size (list_to_set l : gset nat) <= length l.
Proof.
  induction l as [|x l IH]; simpl; [done|].
  pose proof (size_union_le_sum {[x]} (list_to_set l)) as H.
  rewrite size_singleton in H. lia.
Qed.

(** X21: the grants a node holds are its own and those of colleagues: a GRANT
    only ever reaches a node from a member of its quorum.  So the node never
    holds more than |colleagues| + 1 grants. *)
Theorem grants_come_from_quorum N draws s i n pc :
  reachable N draws s -> nodes s !! i = Some (n, pc) ->
  (forall x, x ∈ grants_received n -> x = i \/ x ∈ colleagues n) /\
  size (grants_received n) <= length (colleagues n) + 1.
Proof.
  intros [cols [Hqn _]]%reachable_quorum Hi.
  destruct (Hqn _ _ _ Hi) as (Hcol & _ & _ & Hr).
  assert (forall x, x ∈ grants_received n -> x = i \/ x ∈ colleagues n) as Hsub
    by (intros x Hx; rewrite Hcol; by apply Hr).
  split; [done|].
  assert (grants_received n ⊆ {[i]} ∪ list_to_set (colleagues n)) as Hincl.
  { intros x [->|Hx]%Hsub; set_solver. }
  apply subseteq_size in Hincl.
  pose proof (size_union_le_sum {[i]} (list_to_set (colleagues n))) as Hu.
  pose proof (size_list_to_set_le (colleagues n)).
  rewrite size_singleton in Hu. lia.
Qed.

Lemma grants_come_from_quorum_witness :
  exists n pc,
    nodes four_nodes_cs !! 0 = Some (n, pc) /\
    (forall x, x ∈ grants_received n -> x = 0 \/ x ∈ colleagues n) /\
    size (grants_received n) <= length (colleagues n) + 1.
Proof.
  destruct (nodes four_nodes_cs !! 0) as [[n pc]|] eqn:E;
    [|by vm_compute in E].
  exists n, pc. split; [reflexivity|].
  exact (grants_come_from_quorum 4 no_draws four_nodes_cs 0 n pc
           SystemExtra.four_nodes_cs_reachable E).
Defined.




End QuorumInv.

Module BarrierSpec.
Import Barrier.

Lemma count_arrived_cons t ts :
  count_arrived (t :: ts) =
  (if arrived t then 1 else 0) + count_arrived ts.
Proof.
  unfold count_arrived. destruct (arrived t) eqn:E.
  - by rewrite filter_cons_True.
  - rewrite filter_cons_False; [done|]. by rewrite E.
Qed.

Lemma count_arrived_le ts : count_arrived ts <= length ts.
Proof. apply length_filter. Qed.

Lemma count_arrived_full ts :
  count_arrived ts = length ts -> Forall (fun t => arrived t = true) ts.
Proof.
  induction ts as [|t ts IH]; [constructor|].
  rewrite count_arrived_cons. simpl. pose proof (count_arrived_le ts).
  destruct (arrived t) eqn:E; intros Hc; [|lia].
  constructor; [done|]. apply IH. lia.
Qed.

Lemma count_arrived_insert ts i t t' :
  ts !! i = Some t ->
  count_arrived (<[i := t']> ts) + (if arrived t then 1 else 0) =
  count_arrived ts + (if arrived t' then 1 else 0).
Proof.
  revert i. induction ts as [|x ts IH]; intros i; [done|].
  destruct i as [|i]; simpl.
  - intros [= ->]. rewrite !count_arrived_cons. lia.
  - intros Hi. rewrite !count_arrived_cons. specialize (IH i Hi). lia.
Qed.

Lemma count_arrived_notify ts : count_arrived (notify_all ts) = count_arrived ts.
Proof.
  induction ts as [|t ts IH]; [done|].
  unfold notify_all in *. rewrite fmap_cons, !count_arrived_cons, IH.
  by destruct t.
Qed.

Lemma barrier_ok_init N : barrier_ok N (init N).
Proof.
  unfold barrier_ok, init. simpl. split_and!.
  - apply length_replicate.
  - induction N as [|N IH]; [done|]. simpl.
    rewrite count_arrived_cons. simpl. done.
  - intros _. apply Forall_replicate. by left.
  - intros <-. constructor.
Qed.

Lemma arrive_ok N i b b' :
  barrier_ok N b -> arrive N i b = Some b' -> barrier_ok N b'.
Proof.
  intros (Hlen & Hcnt & Hlow & Hfull). unfold arrive.
  destruct (threads b !! i) as [[| |]|] eqn:Ei; try done.
  intros [= <-]. unfold barrier_ok. simpl.
  pose proof (count_arrived_le (threads b)) as Hle.
  assert (finished_nodes b < N) as Hlt.
  { destruct (decide (finished_nodes b < N)) as [|Hge]; [done|].
    assert (count_arrived (threads b) = length (threads b)) as Hall by lia.
    apply count_arrived_full in Hall.
    rewrite Forall_lookup in Hall. by specialize (Hall _ _ Ei). }
  specialize (Hlow Hlt). clear Hfull.
  destruct (Nat.eqb_spec (finished_nodes b + 1) N) as [Heq|Hne].
  - (* the last thread *)
    unfold after_test. rewrite (proj2 (Nat.ltb_ge _ _)) by lia.
    assert (notify_all (threads b) !! i = Some BOutside) as Ei'.
    { unfold notify_all. by rewrite list_lookup_fmap, Ei. }
    pose proof (count_arrived_insert _ i _ BDone Ei') as Hc. simpl in Hc.
    rewrite count_arrived_notify in Hc.
    split_and!.
    + unfold notify_all. by rewrite length_insert, length_fmap.
    + lia.
    + intros ?. lia.
    + intros _.
      assert (count_arrived (<[i := BDone]> (threads b))
              = length (<[i := BDone]> (threads b))) as Hall.
      { pose proof (count_arrived_insert _ i _ BDone Ei) as Hc'.
        simpl in Hc'. rewrite length_insert. lia. }
      apply count_arrived_full in Hall.
      rewrite Forall_lookup in Hall, Hlow. apply Forall_lookup.
      intros k t Hk. destruct (decide (i = k)) as [->|Hik].
      * rewrite list_lookup_insert_eq in Hk
          by (unfold notify_all; rewrite length_fmap;
              by eapply lookup_lt_Some).
        injection Hk as <-. by right.
      * rewrite list_lookup_insert_ne in Hk by done.
        unfold notify_all in Hk. rewrite list_lookup_fmap in Hk.
        destruct (threads b !! k) as [t0|] eqn:Ek; [|done].
        simpl in Hk. injection Hk as <-.
        specialize (Hall k t0). rewrite list_lookup_insert_ne in Hall by done.
        specialize (Hall Ek). destruct (Hlow _ _ Ek) as [->| ->]; [done|].
        by left.
  - unfold after_test.
    destruct (Nat.ltb_spec (finished_nodes b + 1) N); [|lia].
    pose proof (count_arrived_insert _ i _ (BWaiting false) Ei) as Hc.
    simpl in Hc.
    split_and!.
    + by rewrite length_insert.
    + lia.
    + intros _. apply Forall_insert; [done|]. by right.
    + intros ?. lia.
Qed.

Lemma resume_ok N i b b' :
  barrier_ok N b -> resume N i b = Some b' ->
  barrier_ok N b' /\ finished_nodes b = N /\ threads b' !! i = Some BDone.
Proof.
  intros (Hlen & Hcnt & Hlow & Hfull). unfold resume.
  destruct (threads b !! i) as [[|[|]|]|] eqn:Ei; try done.
  intros [= <-]. simpl.
  pose proof (count_arrived_le (threads b)) as Hle.
  assert (finished_nodes b = N) as Heq.
  { destruct (decide (finished_nodes b < N)) as [Hlt|]; [|lia].
    specialize (Hlow Hlt). rewrite Forall_lookup in Hlow.
    by destruct (Hlow _ _ Ei). }
  unfold after_test. rewrite (proj2 (Nat.ltb_ge _ _)) by lia.
  pose proof (count_arrived_insert _ i _ BDone Ei) as Hc. simpl in Hc.
  split; [|split; [done|]].
  - unfold barrier_ok. simpl. split_and!.
    + by rewrite length_insert.
    + lia.
    + intros ?. lia.
    + intros _. apply Forall_insert; [by apply Hfull|]. by right.
  - apply list_lookup_insert_eq. by eapply lookup_lt_Some.
Qed.

Lemma run_ok N tr :
  forall b b', barrier_ok N b -> run N tr b = Some b' -> barrier_ok N b'.
Proof.
  induction tr as [|e tr IH]; intros b b' Hb; simpl.
  - by intros [= <-].
  - destruct (bstep N e b) as [b1|] eqn:E; [|done]. simpl.
    apply IH. destruct e as [i|i]; simpl in E.
    + by eapply arrive_ok.
    + by eapply resume_ok.
Qed.

(** X25: no thread returns from [_finished] before every thread has called it:
    when one has returned, the counter is N and no thread is still
    outside. *)
Theorem barrier_holds_back N tr b i :
  run N tr (init N) = Some b -> threads b !! i = Some BDone ->
  finished_nodes b = N /\ Forall (fun t => arrived t = true) (threads b).
Proof.
  intros Hrun Hi.
  pose proof (run_ok N tr _ _ (barrier_ok_init N) Hrun)
    as (Hlen & Hcnt & Hlow & Hfull).
  pose proof (count_arrived_le (threads b)) as Hle.
  assert (finished_nodes b = N) as Heq.
  { destruct (decide (finished_nodes b < N)) as [Hlt|]; [|lia].
    specialize (Hlow Hlt). rewrite Forall_lookup in Hlow.
    by destruct (Hlow _ _ Hi). }
  split; [done|]. apply count_arrived_full. lia.
Qed.

Lemma barrier_holds_back_witness :
  finished_nodes (mkState 2 [BDone; BDone]) = 2 /\
  Forall (fun t => arrived t = true) (threads (mkState 2 [BDone; BDone])).
Proof.
  apply (barrier_holds_back 2 [Arrive 0; Arrive 1; Resume 0]
           (mkState 2 [BDone; BDone]) 1).
  - reflexivity.
  - reflexivity.
Defined.

(** X26: the counter is the number of threads that have called [_finished],
    never more than N; and once it is N every thread still blocked has
    been notified, so that its next step returns: no wake-up is lost. *)
Theorem barrier_releases_all N tr b :
  run N tr (init N) = Some b ->
  finished_nodes b = count_arrived (threads b) /\
  finished_nodes b <= N /\
  (finished_nodes b = N ->
   forall i w, threads b !! i = Some (BWaiting w) ->
     exists b', resume N i b = Some b' /\ threads b' !! i = Some BDone).
Proof.
  intros Hrun.
  pose proof (run_ok N tr _ _ (barrier_ok_init N) Hrun) as Hok.
  pose proof Hok as (Hlen & Hcnt & Hlow & Hfull).
  pose proof (count_arrived_le (threads b)) as Hle.
  split; [done|]. split; [lia|].
  intros Heq i w Hi. specialize (Hfull Heq). rewrite Forall_lookup in Hfull.
  destruct (Hfull _ _ Hi) as [[= ->]|?]; [|done].
  destruct (resume N i b) as [b'|] eqn:E.
  - exists b'. split; [done|]. by destruct (resume_ok _ _ _ _ Hok E) as (_ & _ & ?).
  - unfold resume in E. by rewrite Hi in E.
Qed.

Lemma barrier_releases_all_witness :
  finished_nodes (mkState 2 [BWaiting true; BDone])
    = count_arrived (threads (mkState 2 [BWaiting true; BDone])) /\
  finished_nodes (mkState 2 [BWaiting true; BDone]) <= 2 /\
  (finished_nodes (mkState 2 [BWaiting true; BDone]) = 2 ->
   forall i w,
     threads (mkState 2 [BWaiting true; BDone]) !! i = Some (BWaiting w) ->
     exists b', resume 2 i (mkState 2 [BWaiting true; BDone]) = Some b' /\
                threads b' !! i = Some BDone).
Proof.
  apply (barrier_releases_all 2 [Arrive 0; Arrive 1]
           (mkState 2 [BWaiting true; BDone])).
  reflexivity.
Defined.

End BarrierSpec.
